(** * extract_pdf.py: reset-procedure extractor, shallow embedding

    The program turns the page texts of a maintenance manual into a list
    of structured records.  Almost all of it is pattern matching with
    Python's [re] module, so the development starts with a backtracking
    matcher that follows [re]'s search order (ordered alternation, greedy
    and lazy repetition, capture groups, look-ahead, [\b], [\Z], [^],
    IGNORECASE and DOTALL), and then transcribes the functions of
    [extract_pdf.py] one by one on top of it.

    Text is a list of Unicode code points.  Whitespace is Python's exact
    [str.isspace] set.  Digits, word characters and case mapping are the
    ASCII ones: a code point above 127 is taken as a caseless symbol that
    is neither a digit nor a word character (true of the en dash, the only
    such character the source names).  On a text of ASCII characters these
    are [re]'s own classes; the properties that say which characters a
    captured field is made of are stated for such texts ([ascii_text]).

    [str(n)] is the decimal writing of [n].  The interpreter refuses, by
    default, to write an integer of more than 4300 digits; the property
    that lists the exceptions of [parse_block] is stated for page numbers
    below that limit ([printable]). *)

From Stdlib Require Import String Ascii DecimalString DecimalPos DecimalZ.
From Stdlib Require Import List Bool Arith NArith ZArith Lia Sorted.
Import ListNotations.

Set Implicit Arguments.

(** ** Characters and strings *)

Definition char := N.
Bind Scope N_scope with char.
Definition str := list char.

Definition str_of (s : string) : str :=
  List.map N_of_ascii (list_ascii_of_string s).

Definition NL : char := 10%N.
Definition ENDASH : char := 8211%N.

Definition in_range (lo hi c : char) : bool := (N.leb lo c && N.leb c hi)%bool.

Definition is_digit (c : char) : bool := in_range 48 57 c.
Definition is_upper (c : char) : bool := in_range 65 90 c.
Definition is_lower (c : char) : bool := in_range 97 122 c.

(** [\w]: letters, digits and the underscore. *)
Definition is_word (c : char) : bool :=
  (is_digit c || is_upper c || is_lower c || N.eqb c 95%N)%bool.

(** [\s] and [str.isspace]. *)
Definition is_space (c : char) : bool :=
  (in_range 9 13 c || in_range 28 32 c || N.eqb c 133%N || N.eqb c 160%N
   || N.eqb c 5760%N || in_range 8192 8202 c || N.eqb c 8232%N || N.eqb c 8233%N
   || N.eqb c 8239%N || N.eqb c 8287%N || N.eqb c 12288%N)%bool.

Definition lower_char (c : char) : char := if is_upper c then (c + 32)%N else c.
Definition upper_char (c : char) : char := if is_lower c then (c - 32)%N else c.

Definition lower (s : str) : str := List.map lower_char s.
Definition upper (s : str) : str := List.map upper_char s.

Fixpoint str_eqb (a b : str) : bool :=
  match a, b with
  | [], [] => true
  | x :: a', y :: b' => (N.eqb x y && str_eqb a' b')%bool
  | _, _ => false
  end.

(** [s[a:b]] for [0 <= a] and [0 <= b]. *)
Definition slice (s : str) (a b : nat) : str := firstn (b - a) (skipn a s).

Fixpoint starts_with (p s : str) : bool :=
  match p, s with
  | [], _ => true
  | x :: p', y :: s' => (N.eqb x y && starts_with p' s')%bool
  | _ :: _, [] => false
  end.

(** [needle in s]. *)
Fixpoint contains (needle s : str) : bool :=
  (starts_with needle s
   || match s with [] => false | _ :: s' => contains needle s' end)%bool.

Fixpoint lstrip_by (p : char -> bool) (s : str) : str :=
  match s with
  | c :: s' => if p c then lstrip_by p s' else s
  | [] => []
  end.

Definition rstrip_by (p : char -> bool) (s : str) : str :=
  rev (lstrip_by p (rev s)).

Definition strip_by (p : char -> bool) (s : str) : str :=
  rstrip_by p (lstrip_by p s).

(** [s.strip()] and [s.strip("-")]. *)
Definition strip (s : str) : str := strip_by is_space s.
Definition strip_chars (cs : str) (s : str) : str :=
  strip_by (fun c => existsb (N.eqb c) cs) s.

(** [s.split(sep)] for a one-character separator. *)
Fixpoint split_on (sep : char) (s : str) : list str :=
  match s with
  | [] => [[]]
  | c :: s' =>
      if N.eqb c sep then [] :: split_on sep s'
      else match split_on sep s' with
           | [] => [[c]]
           | l :: ls => (c :: l) :: ls
           end
  end.

(** [sep.join(parts)]. *)
Fixpoint join (sep : str) (parts : list str) : str :=
  match parts with
  | [] => []
  | [p] => p
  | p :: ps => p ++ sep ++ join sep ps
  end.

(** [s.replace(old, new)] for a non-empty [old]: leftmost occurrences,
    not overlapping. *)
Fixpoint replace_go (fuel : nat) (old new s : str) : str :=
  match fuel with
  | O => s
  | S fuel' =>
      match s with
      | [] => []
      | c :: s' =>
          if starts_with old s
          then new ++ replace_go fuel' old new (skipn (length old) s)
          else c :: replace_go fuel' old new s'
      end
  end.

Definition replace (old new s : str) : str :=
  replace_go (length s) old new s.

(** [str(n)] for an integer (of at most 4300 digits, the interpreter's
    default limit for the conversion). *)
Definition dec (z : Z) : str := str_of (NilZero.string_of_int (Z.to_int z)).

(** [int(s)] for a run of decimal digits. *)
Definition int_of_digits (s : str) : Z :=
  fold_left (fun acc c => (10 * acc + (Z.of_N c - 48))%Z) s 0%Z.

(** [list(dict.fromkeys(l))]: the distinct elements in order of first
    appearance. *)
Fixpoint fromkeys_go (seen : list str) (l : list str) : list str :=
  match l with
  | [] => []
  | x :: l' =>
      if existsb (str_eqb x) seen then fromkeys_go seen l'
      else x :: fromkeys_go (x :: seen) l'
  end.

Definition fromkeys (l : list str) : list str := fromkeys_go [] l.

(** ** Regular expressions

    The abstract syntax of the patterns of the source, and a matcher that
    explores alternatives in the order [re] does.  The matcher is written
    in continuation-passing style: [k] is what remains to be matched after
    the current node, so a failure of [k] makes the node try its next
    alternative.  A position is the text still to be read together with
    the character just before it. *)

Inductive citem : Type :=
| CChar (c : char)             (* a literal character *)
| CRange (lo hi : char)        (* [lo-hi] *)
| CDigit                       (* \d *)
| CWord                        (* \w *)
| CSpace                       (* \s *)
| CNotSpace.                   (* \S *)

Inductive regex : Type :=
| Empty
| Set_ (negated : bool) (items : list citem)  (* one character of a class *)
| Dot                                          (* . *)
| Cat (r1 r2 : regex)
| Or (r1 r2 : regex)
| Repeat (r : regex) (lo : nat) (hi : option nat) (greedy : bool)
| Group (i : nat) (r : regex)                  (* the i-th ( ... ) *)
| Ahead (r : regex)                            (* (?= ... ) *)
| WordBoundary                                 (* \b *)
| EndOfString                                  (* \Z *)
| StartOfString.                               (* ^ without MULTILINE *)

Record flags : Type := { IGNORECASE : bool; DOTALL : bool }.

Definition NOFLAGS : flags := {| IGNORECASE := false; DOTALL := false |}.
Definition I_ : flags := {| IGNORECASE := true; DOTALL := false |}.
Definition I_DOTALL : flags := {| IGNORECASE := true; DOTALL := true |}.

Definition citem_has (it : citem) (c : char) : bool :=
  match it with
  | CChar x => N.eqb c x
  | CRange lo hi => in_range lo hi c
  | CDigit => is_digit c
  | CWord => is_word c
  | CSpace => is_space c
  | CNotSpace => negb (is_space c)
  end.

(** Under IGNORECASE an item accepts a character when it accepts its
    lower-case or its upper-case form. *)
Definition citem_matches (fl : flags) (it : citem) (c : char) : bool :=
  if IGNORECASE fl
  then (citem_has it (lower_char c) || citem_has it (upper_char c))%bool
  else citem_has it c.

Definition set_matches (fl : flags) (negated : bool) (items : list citem)
    (c : char) : bool :=
  xorb negated (existsb (fun it => citem_matches fl it c) items).

Definition caps := list (nat * str).

Fixpoint cap_get (i : nat) (cs : caps) : option str :=
  match cs with
  | [] => None
  | (j, v) :: cs' => if Nat.eqb i j then Some v else cap_get i cs'
  end.

(** Where a match attempt ends: the character before the end, the text
    after it, and the groups. *)
Definition mstate : Type := (option char * str * caps)%type.
Definition cont := option char -> str -> caps -> option mstate.

Definition word_before (prev : option char) : bool :=
  match prev with Some c => is_word c | None => false end.
Definition word_after (rest : str) : bool :=
  match rest with c :: _ => is_word c | [] => false end.

Definition below (n : nat) (hi : option nat) : bool :=
  match hi with Some h => Nat.ltb n h | None => true end.

Section Matcher.

Variable fl : flags.

(** A repetition: [body] is the matcher of the repeated pattern, [n] the
    number of rounds done.  The body runs again only from a position
    further on than the one the previous round started from; the bodies
    repeated in the source all consume at least one character, so this is
    [re]'s own behaviour on them.  The counter [fuel] starts above the
    length of the remaining text and so never reaches zero. *)
Fixpoint rloop (body : option char -> str -> caps -> cont -> option mstate)
    (lo : nat) (hi : option nat) (greedy : bool) (k : cont)
    (fuel n : nat) (prev : option char) (rest : str) (cs : caps)
    {struct fuel} : option mstate :=
  match fuel with
  | O => None
  | S fuel' =>
      let again (_ : unit) :=
        if below n hi
        then body prev rest cs
               (fun p s c =>
                  if Nat.ltb (length s) (length rest)
                  then rloop body lo hi greedy k fuel' (S n) p s c
                  else None)
        else None in
      let leave (_ : unit) :=
        if Nat.leb lo n then k prev rest cs else None in
      if greedy
      then match again tt with Some x => Some x | None => leave tt end
      else match leave tt with Some x => Some x | None => again tt end
  end.

Fixpoint rmatch (r : regex) (prev : option char) (rest : str) (cs : caps)
    (k : cont) {struct r} : option mstate :=
  match r with
  | Empty => k prev rest cs
  | Set_ negated items =>
      match rest with
      | c :: rest' =>
          if set_matches fl negated items c then k (Some c) rest' cs else None
      | [] => None
      end
  | Dot =>
      match rest with
      | c :: rest' =>
          if (DOTALL fl || negb (N.eqb c NL))%bool then k (Some c) rest' cs
          else None
      | [] => None
      end
  | Cat r1 r2 =>
      rmatch r1 prev rest cs (fun p s c => rmatch r2 p s c k)
  | Or r1 r2 =>
      match rmatch r1 prev rest cs k with
      | Some x => Some x
      | None => rmatch r2 prev rest cs k
      end
  | Repeat r1 lo hi greedy =>
      rloop (rmatch r1) lo hi greedy k (S (length rest)) O prev rest cs
  | Group i r1 =>
      rmatch r1 prev rest cs
        (fun p s c =>
           k p s ((i, firstn (length rest - length s) rest) :: c))
  | Ahead r1 =>
      match rmatch r1 prev rest cs (fun p s c => Some (p, s, c)) with
      | Some (_, _, c) => k prev rest c
      | None => None
      end
  | WordBoundary =>
      if xorb (word_before prev) (word_after rest) then k prev rest cs
      else None
  | EndOfString =>
      match rest with [] => k prev rest cs | _ :: _ => None end
  | StartOfString =>
      match prev with None => k prev rest cs | Some _ => None end
  end.

(** One attempt at one position.  [must_advance] is what the scanner of
    [re] sets after an empty match: the next match may not be empty at
    that same position. *)
Definition match_at (r : regex) (must_advance : bool) (prev : option char)
    (rest : str) : option mstate :=
  rmatch r prev rest []
    (fun p s c =>
       if (must_advance && Nat.eqb (length s) (length rest))%bool then None
       else Some (p, s, c)).

(** The leftmost position at or after the current one where an attempt
    succeeds: the number of characters skipped, the text from the start of
    the match, and where the match ends. *)
Fixpoint search_from (r : regex) (must_advance : bool) (prev : option char)
    (rest : str) {struct rest} : option (nat * str * mstate) :=
  match match_at r must_advance prev rest with
  | Some e => Some (O, rest, e)
  | None =>
      match rest with
      | [] => None
      | c :: rest' =>
          match search_from r false (Some c) rest' with
          | Some (n, from, e) => Some (S n, from, e)
          | None => None
          end
      end
  end.

(** A match object: [m.start()], [m.end()], [m.group(0)] and the groups. *)
Record match_obj : Type := {
  m_start : nat;
  m_end : nat;
  m_text : str;
  m_caps : caps
}.

Definition mk_match (off : nat) (found : nat * str * mstate) : match_obj :=
  let '(n, from, (_, after, c)) := found in
  let len := length from - length after in
  {| m_start := off + n; m_end := off + n + len;
     m_text := firstn len from; m_caps := c |}.

(** [re.search(r, s)]. *)
Definition re_search (r : regex) (s : str) : option match_obj :=
  match search_from r false None s with
  | Some found => Some (mk_match O found)
  | None => None
  end.

(** The scanner behind [finditer], [findall] and [sub]: after a match the
    search resumes where the match ended. *)
Fixpoint scan (fuel : nat) (r : regex) (must_advance : bool) (off : nat)
    (prev : option char) (rest : str) {struct fuel} : list match_obj :=
  match fuel with
  | O => []
  | S fuel' =>
      match search_from r must_advance prev rest with
      | None => []
      | Some ((n, from, (p, after, c)) as found) =>
          let mo := mk_match off found in
          mo :: scan fuel' r (Nat.eqb (m_end mo) (m_start mo)) (m_end mo)
                  p after
      end
  end.

(** [list(re.finditer(r, s))].  Two successive matches cannot both be
    empty at one position, so twice the length of the text (and two more)
    rounds are enough. *)
Definition finditer (r : regex) (s : str) : list match_obj :=
  scan (2 * length s + 2) r false O None s.

End Matcher.

(** [m.group(i)] for [i >= 1]: [None] when the group took no part. *)
Definition group (m : match_obj) (i : nat) : option str := cap_get i (m_caps m).

(** [m.groups()] for a pattern with [n] groups. *)
Definition groups (n : nat) (m : match_obj) : list (option str) :=
  List.map (group m) (seq 1 n).

(** [re.findall] for a pattern without groups, and for a pattern with one
    group (where a group that took no part gives the empty string). *)
Definition findall0 (fl : flags) (r : regex) (s : str) : list str :=
  List.map m_text (finditer fl r s).
Definition findall1 (fl : flags) (r : regex) (s : str) : list str :=
  List.map (fun m => match group m 1 with Some g => g | None => [] end)
    (finditer fl r s).

(** [re.sub(r, repl, s)] for a replacement without back-references. *)
Fixpoint sub_go (s : str) (last : nat) (ms : list match_obj) (repl : str)
    : str :=
  match ms with
  | [] => skipn last s
  | m :: ms' => slice s last (m_start m) ++ repl ++ sub_go s (m_end m) ms' repl
  end.

Definition re_sub (fl : flags) (r : regex) (repl s : str) : str :=
  sub_go s O (finditer fl r s) repl.

(** Pattern notation. *)
Definition ch (c : char) : regex := Set_ false [CChar c].
Definition cls (items : list citem) : regex := Set_ false items.
Definition ncls (items : list citem) : regex := Set_ true items.
Definition digit : regex := cls [CDigit].
Definition space : regex := cls [CSpace].
Definition word : regex := cls [CWord].
Definition star (r : regex) : regex := Repeat r 0 None true.
Definition plus (r : regex) : regex := Repeat r 1 None true.
Definition plus_lazy (r : regex) : regex := Repeat r 1 None false.
Definition opt (r : regex) : regex := Repeat r 0 (Some 1) true.
Definition times (r : regex) (lo hi : nat) : regex := Repeat r lo (Some hi) true.
Definition at_least (r : regex) (lo : nat) : regex := Repeat r lo None true.

Fixpoint cat (rs : list regex) : regex :=
  match rs with
  | [] => Empty
  | [r] => r
  | r :: rs' => Cat r (cat rs')
  end.

Fixpoint alt (rs : list regex) : regex :=
  match rs with
  | [] => Empty
  | [r] => r
  | r :: rs' => Or r (alt rs')
  end.

Definition lit (s : string) : regex := cat (List.map ch (str_of s)).
Definition c_ (s : string) : citem :=
  match str_of s with c :: _ => CChar c | [] => CChar 0%N end.
Definition r_ (lo hi : string) : citem :=
  match str_of lo, str_of hi with
  | a :: _, b :: _ => CRange a b
  | _, _ => CRange 1%N 0%N
  end.

(** ** The patterns of [extract_pdf.py]

    Each definition is preceded by the pattern as the source writes it
    (a pattern quoted in two pieces is the two pieces joined). *)

Module Pat.

(** "0[5-9]\d-\d+" *)
Definition ceo_range : regex :=
  cat [lit "0"; cls [r_ "5" "9"]; digit; lit "-"; plus digit].

(** "1\d\d-\d+" *)
Definition neo_range : regex :=
  cat [lit "1"; digit; digit; lit "-"; plus digit].

(** "05[1-9]|0[6-9]\d|100" *)
Definition ceo_number : regex :=
  alt [cat [lit "05"; cls [r_ "1" "9"]];
       cat [lit "0"; cls [r_ "6" "9"]; digit];
       lit "100"].

(** "10[1-9]|1[1-4]\d|150" *)
Definition neo_number : regex :=
  alt [cat [lit "10"; cls [r_ "1" "9"]];
       cat [lit "1"; cls [r_ "1" "4"]; digit];
       lit "150"].

(** "(SUBTASK\s+[\d-]+\s*[-–]\s*[\w\s]+)", IGNORECASE *)
Definition subtask : regex :=
  Group 1
    (cat [lit "SUBTASK"; plus space; plus (cls [CDigit; c_ "-"]); star space;
          cls [c_ "-"; CChar ENDASH]; star space; plus (cls [CWord; CSpace])]).

(** "<<<PAGE (\d+)>>>" *)
Definition page_marker : regex :=
  cat [lit "<<<PAGE "; Group 1 (plus digit); lit ">>>"].

(** "\*\*\s*ON\s+A/C\s+FSN\s+([\d\s,\-–]+(?:TO|AND|OR|,|[\d\s])*" ")",
    IGNORECASE *)
Definition fsn : regex :=
  cat [lit "**"; star space; lit "ON"; plus space; lit "A/C"; plus space;
       lit "FSN"; plus space;
       Group 1
         (cat [plus (cls [CDigit; CSpace; c_ ","; c_ "-"; CChar ENDASH]);
               star (alt [lit "TO"; lit "AND"; lit "OR"; lit ",";
                          cls [CDigit; CSpace]])])].

(** "(?:ATA|TASK)\s+(\d{2})[-–\s]" *)
Definition ata : regex :=
  cat [alt [lit "ATA"; lit "TASK"]; plus space; Group 1 (times digit 2 2);
       cls [c_ "-"; CChar ENDASH; CSpace]].

(** "(?:ECAM[^:\n]*[:–\-]\s*|ALERT[^:\n]*[:–\-]\s*|MESSAGE[^:\n]*[:–\-]\s*"
    ")([A-Z][A-Z0-9 /\+]+)",
    IGNORECASE *)
Definition ecam : regex :=
  let label (w : string) :=
    cat [lit w; star (ncls [c_ ":"; CChar NL]);
         cls [c_ ":"; CChar ENDASH; c_ "-"]; star space] in
  cat [alt [label "ECAM"%string; label "ALERT"%string; label "MESSAGE"%string];
       Group 1
         (cat [cls [r_ "A" "Z"];
               plus (cls [r_ "A" "Z"; r_ "0" "9"; c_ " "; c_ "/"; c_ "+"])])].

(** "\b([A-Z]{2,4}(?:\s+[A-Z]{2,})+(?:\s+\d+)?(?:\s+FAULT)?)\b" *)
Definition known : regex :=
  cat [WordBoundary;
       Group 1
         (cat [times (cls [r_ "A" "Z"]) 2 4;
               plus (cat [plus space; at_least (cls [r_ "A" "Z"]) 2]);
               opt (cat [plus space; plus digit]);
               opt (cat [plus space; lit "FAULT"])]);
       WordBoundary].

(** "(?:COMPUTER|AFFECTED COMPUTER|SYSTEM)[:\s]+([A-Z0-9/\-]+(?:\s+[A-Z0-9/\-]+)?)",
    IGNORECASE *)
Definition computer : regex :=
  let tok := plus (cls [r_ "A" "Z"; r_ "0" "9"; c_ "/"; c_ "-"]) in
  cat [alt [lit "COMPUTER"; lit "AFFECTED COMPUTER"; lit "SYSTEM"];
       plus (cls [c_ ":"; CSpace]);
       Group 1 (cat [tok; opt (cat [plus space; tok])])].

(** "(?:RESET PROCEDURE|PROCEDURE)[:\s]*([\s\S]+?)(?=CIRCUIT BREAKER|WARNING|CAUTION|NOTE|SUBTASK|\Z)",
    IGNORECASE *)
Definition procedure : regex :=
  cat [alt [lit "RESET PROCEDURE"; lit "PROCEDURE"];
       star (cls [c_ ":"; CSpace]);
       Group 1 (plus_lazy (cls [CSpace; CNotSpace]));
       Ahead (alt [lit "CIRCUIT BREAKER"; lit "WARNING"; lit "CAUTION";
                   lit "NOTE"; lit "SUBTASK"; EndOfString])].

(** "^\d+[\.\)]\s*" *)
Definition step_number : regex :=
  cat [StartOfString; plus digit; cls [c_ "."; c_ ")"]; star space].

(** "WARNING\s*[:\-]?\s*(.+?)(?=CAUTION|NOTE|WARNING|\n\n|\Z)",
    IGNORECASE | DOTALL *)
Definition warning : regex :=
  cat [lit "WARNING"; star space; opt (cls [c_ ":"; c_ "-"]); star space;
       Group 1 (plus_lazy Dot);
       Ahead (alt [lit "CAUTION"; lit "NOTE"; lit "WARNING";
                   Cat (ch NL) (ch NL); EndOfString])].

(** "CAUTION\s*[:\-]?\s*(.+?)(?=WARNING|NOTE|CAUTION|\n\n|\Z)",
    IGNORECASE | DOTALL *)
Definition caution : regex :=
  cat [lit "CAUTION"; star space; opt (cls [c_ ":"; c_ "-"]); star space;
       Group 1 (plus_lazy Dot);
       Ahead (alt [lit "WARNING"; lit "NOTE"; lit "CAUTION";
                   Cat (ch NL) (ch NL); EndOfString])].

(** "NOTE\s*[:\-]?\s*([\s\S]+?)(?=WARNING|CAUTION|CIRCUIT|SUBTASK|\Z)",
    IGNORECASE *)
Definition note : regex :=
  cat [lit "NOTE"; star space; opt (cls [c_ ":"; c_ "-"]); star space;
       Group 1 (plus_lazy (cls [CSpace; CNotSpace]));
       Ahead (alt [lit "WARNING"; lit "CAUTION"; lit "CIRCUIT";
                   lit "SUBTASK"; EndOfString])].

(** "[^a-z0-9]+" *)
Definition not_alnum : regex := plus (ncls [r_ "a" "z"; r_ "0" "9"]).

(** "(\d{2,3}VU)\s+([\w/\- ]+?)\s+(\w{2,6})\s+([A-Z]\d{2})\s*([\d\-,\s]*" ")",
    IGNORECASE: five groups *)
Definition cb_full : regex :=
  cat [Group 1 (cat [times digit 2 3; lit "VU"]); plus space;
       Group 2 (plus_lazy (cls [CWord; c_ "/"; c_ "-"; c_ " "])); plus space;
       Group 3 (times word 2 6); plus space;
       Group 4 (cat [cls [r_ "A" "Z"]; times digit 2 2]); star space;
       Group 5 (star (cls [CDigit; c_ "-"; c_ ","; CSpace]))].

(** "\b(\d\w{1,5})\b\s+(?:AT\s+)?([A-Z]\d{2})\b", IGNORECASE: two groups *)
Definition cb_partial : regex :=
  cat [WordBoundary; Group 1 (cat [digit; times word 1 5]); WordBoundary;
       plus space; opt (cat [lit "AT"; plus space]);
       Group 2 (cat [cls [r_ "A" "Z"]; times digit 2 2]); WordBoundary].

End Pat.

(** ** Exceptions

    A Python call either returns or raises; the two exceptions the
    extractor can meet are a missing dictionary key and a method call on
    [None] (a group that took no part in its match). *)

Inductive exn : Type :=
| KeyError (key : string)
| AttributeError.

Inductive outcome (A : Type) : Type :=
| Ret (a : A)
| Raise (e : exn).

Arguments Ret {A} a.
Arguments Raise {A} e.

Definition bind {A B : Type} (c : outcome A) (f : A -> outcome B) : outcome B :=
  match c with
  | Ret a => f a
  | Raise e => Raise e
  end.

Notation "x <- c ;; k" := (bind c (fun x => k))
  (at level 61, c at next level, right associativity).

(** [f(x) for x in l] where [f] may raise: the first exception ends it. *)
Fixpoint map_exn {A B : Type} (f : A -> outcome B) (l : list A)
    : outcome (list B) :=
  match l with
  | [] => Ret []
  | x :: l' => y <- f x ;; ys <- map_exn f l' ;; Ret (y :: ys)
  end.

(** [v.strip()] where [v] is a string or [None]. *)
Definition strip_opt (v : option str) : outcome str :=
  match v with
  | Some s => Ret (strip s)
  | None => Raise AttributeError
  end.

Definition is_empty {A : Type} (l : list A) : bool :=
  match l with [] => true | _ :: _ => false end.

Definition found (m : option match_obj) : bool :=
  match m with Some _ => true | None => false end.

(** ** Applicability: [fsn_to_aircraft] *)

Definition CEO : str := str_of "CEO".
Definition NEO : str := str_of "NEO".

Definition fsn_to_aircraft (fsn_marker : str) : list str :=
  if (is_empty fsn_marker || contains (str_of "ALL") (upper fsn_marker))%bool
  then [CEO; NEO]
  else
    let ceo_ranges := findall0 NOFLAGS Pat.ceo_range fsn_marker in
    let neo_ranges := findall0 NOFLAGS Pat.neo_range fsn_marker in
    let has_ceo := (negb (is_empty ceo_ranges)
                    || found (re_search NOFLAGS Pat.ceo_number fsn_marker))%bool in
    let has_neo := (negb (is_empty neo_ranges)
                    || found (re_search NOFLAGS Pat.neo_number fsn_marker))%bool in
    let aircraft := [] in
    let aircraft := if has_ceo then aircraft ++ [CEO] else aircraft in
    let aircraft := if has_neo then aircraft ++ [NEO] else aircraft in
    if negb (is_empty aircraft) then aircraft else [CEO; NEO].

(** ** Block splitting: [split_into_blocks] *)

Module Page.
Record t : Type := { page : Z; text : str }.
End Page.

(** A block is a dictionary; [parse_block] reads ["text"] and ["page"]
    always and ["subtask_header"] only on its last fallback, so a block
    may come without that key. *)
Module Block.
Record t : Type := { subtask_header : option str; text : str; page : Z }.
End Block.

Definition page_sentinel (n : Z) : str :=
  [NL] ++ str_of "<<<PAGE " ++ dec n ++ str_of ">>>" ++ [NL].

Definition full_with_markers (pages : list Page.t) : str :=
  fold_left (fun acc p => acc ++ page_sentinel (Page.page p) ++ Page.text p)
    pages [].

(** The page of the last sentinel in [preceding], or 0. *)
Definition page_before (preceding : str) : Z :=
  let page_markers := findall1 NOFLAGS Pat.page_marker preceding in
  match rev page_markers with
  | last :: _ => int_of_digits last
  | [] => 0%Z
  end.

(** The loop over [splits]: a block runs from the start of its header to
    the start of the next one, or to the end of the text. *)
Fixpoint blocks_of (full : str) (splits : list match_obj) : list Block.t :=
  match splits with
  | [] => []
  | m :: rest =>
      let start := m_start m in
      let end_ := match rest with
                  | next :: _ => m_start next
                  | [] => length full
                  end in
      let block_text := slice full start end_ in
      let preceding := firstn start full in
      {| Block.subtask_header := Some (strip (m_text m));
         Block.text := block_text;
         Block.page := page_before preceding |} :: blocks_of full rest
  end.

Definition split_into_blocks (pages : list Page.t) : list Block.t :=
  let full := full_with_markers pages in
  blocks_of full (finditer I_ Pat.subtask full).

(** ** The reference table: [parse_cb_table] *)

Record cb_row : Type := {
  panel : str;
  designation : str;
  fin : str;
  location : str;
  fsn : str
}.

(** The patterns tried in turn, each with its number of groups (the
    length of [match.groups()]). *)
Definition cb_patterns : list (regex * nat) :=
  [(Pat.cb_full, 5); (Pat.cb_partial, 2)].

(** [groups[i].strip()]. *)
Definition strip_nth (gs : list (option str)) (i : nat) : outcome str :=
  strip_opt (nth i gs None).

(** The body of the inner loop: the rows one match adds to [cb_entries]. *)
Definition cb_rows_of_match (n : nat) (default_fsn : str) (m : match_obj)
    : outcome (list cb_row) :=
  let gs := groups n m in
  if Nat.leb 4 (length gs) then
    g0 <- strip_nth gs 0 ;;
    g1 <- strip_nth gs 1 ;;
    g2 <- strip_nth gs 2 ;;
    g3 <- strip_nth gs 3 ;;
    g4 <- (if Nat.ltb 4 (length gs)
           then s <- strip_nth gs 4 ;;
                Ret (if negb (is_empty s) then s else default_fsn)
           else Ret default_fsn) ;;
    Ret [{| panel := g0; designation := g1; fin := g2; location := g3;
            fsn := g4 |}]
  else Ret [].

(** The outer loop: stop at the first pattern after which [cb_entries] is
    not empty. *)
Fixpoint cb_collect (patterns : list (regex * nat)) (text default_fsn : str)
    (cb_entries : list cb_row) : outcome (list cb_row) :=
  match patterns with
  | [] => Ret cb_entries
  | (pattern, n) :: patterns' =>
      rows <- map_exn (cb_rows_of_match n default_fsn)
                (finditer I_ pattern text) ;;
      let cb_entries := cb_entries ++ concat rows in
      if negb (is_empty cb_entries) then Ret cb_entries
      else cb_collect patterns' text default_fsn cb_entries
  end.

(** Deduplicate by FIN. *)
Fixpoint dedup_fin (seen_fins : list str) (cb_entries : list cb_row)
    : list cb_row :=
  match cb_entries with
  | [] => []
  | cb :: rest =>
      if negb (existsb (str_eqb (fin cb)) seen_fins)
      then cb :: dedup_fin (fin cb :: seen_fins) rest
      else dedup_fin seen_fins rest
  end.

Definition parse_cb_table (text default_fsn : str) : outcome (list cb_row) :=
  cb_entries <- cb_collect cb_patterns text default_fsn [] ;;
  let unique := dedup_fin [] cb_entries in
  Ret (firstn 10 unique).

(** ** One block: [parse_block] *)

Record record : Type := {
  id : str;
  aircraft : list str;
  ecamMessages : list str;
  ata : option str;            (* [m.group(1)]: a string, or [None] *)
  computer : str;
  resetProcedure : str;
  notes : str;
  warnings : list str;
  cautions : list str;
  cbTable : list cb_row;
  _source_page : Z;
  _fsn_raw : str
}.

(** [block["subtask_header"]]. *)
Definition get_header (block : Block.t) : outcome str :=
  match Block.subtask_header block with
  | Some h => Ret h
  | None => Raise (KeyError "subtask_header")
  end.

(** [m.group(1).strip() if m else default]. *)
Definition group1_or (m : option match_obj) (default : str) : outcome str :=
  match m with
  | Some mo => strip_opt (group mo 1)
  | None => Ret default
  end.

(** The primary identifiers: the stripped first group of every match of
    the label pattern, kept when longer than 4, without repetitions. *)
Definition ecam_primary (text : str) : outcome (list str) :=
  gs <- map_exn (fun m => strip_opt (group m 1)) (finditer I_ Pat.ecam text) ;;
  Ret (fromkeys (filter (fun g => Nat.ltb 4 (length g)) gs)).

(** The fallback identifiers: upper-case word runs longer than 6, without
    repetitions, the first four. *)
Definition ecam_known (text : str) : list str :=
  let known := findall1 NOFLAGS Pat.known text in
  firstn 4
    (fromkeys (List.map strip (filter (fun k => Nat.ltb 6 (length k)) known))).

Definition ecam_msgs_of (block : Block.t) : outcome (list str) :=
  ecam_msgs <- ecam_primary (Block.text block) ;;
  let ecam_msgs :=
    if is_empty ecam_msgs then ecam_known (Block.text block) else ecam_msgs in
  if is_empty ecam_msgs
  then h <- get_header block ;;
       Ret [strip (replace (str_of "SUBTASK") [] h)]
  else Ret ecam_msgs.

(** [f"{i+1}. {s}"] for [i, s] in [enumerate(steps)], counting from [i]. *)
Fixpoint numbered (i : nat) (steps : list str) : list str :=
  match steps with
  | [] => []
  | s :: steps' =>
      (dec (Z.of_nat (i + 1)) ++ str_of ". " ++ s) :: numbered (S i) steps'
  end.

(** The step lines of the captured procedure text. *)
Definition steps_of (raw_proc : str) : list str :=
  List.map (re_sub NOFLAGS Pat.step_number [])
    (filter (fun line => negb (is_empty line || Nat.ltb (length line) 5))
       (List.map strip (split_on NL raw_proc))).

(** The loops over WARNING and CAUTION declarations. *)
Definition advisories (pattern : regex) (text : str) : outcome (list str) :=
  txts <- map_exn
            (fun m => s <- strip_opt (group m 1) ;; Ret (replace [NL] (str_of " ") s))
            (finditer I_DOTALL pattern text) ;;
  Ret (filter (fun txt => (negb (is_empty txt) && Nat.ltb 10 (length txt))%bool)
         txts).

Definition parse_block (block : Block.t) : outcome (option record) :=
  let text := Block.text block in
  let page := Block.page block in
  fsn_str <- group1_or (re_search I_ Pat.fsn text) (str_of "ALL") ;;
  let aircraft := fsn_to_aircraft fsn_str in
  let ata := match re_search NOFLAGS Pat.ata text with
             | Some m => group m 1
             | None => Some (str_of "00")
             end in
  ecam_msgs <- ecam_msgs_of block ;;
  computer <- group1_or (re_search I_ Pat.computer text) [] ;;
  raw_proc <- group1_or (re_search I_ Pat.procedure text) [] ;;
  let steps := steps_of raw_proc in
  let reset_procedure :=
    if negb (is_empty steps) then join [NL] (numbered 0 steps) else raw_proc in
  warnings <- advisories Pat.warning text ;;
  cautions <- advisories Pat.caution text ;;
  notes <- match re_search I_ Pat.note text with
           | Some m => s <- strip_opt (group m 1) ;;
                       Ret (replace [NL] (str_of " ") s)
           | None => Ret []
           end ;;
  cb_table <- parse_cb_table text fsn_str ;;
  id_base <- match ecam_msgs with
             | first :: _ => Ret (lower first)
             | [] => h <- get_header block ;; Ret (lower h)
             end ;;
  let id_str :=
    firstn 60 (strip_chars (str_of "-")
                 (re_sub NOFLAGS Pat.not_alnum (str_of "-") id_base))
    ++ str_of "-p" ++ dec page in
  Ret (Some {| id := id_str;
               aircraft := aircraft;
               ecamMessages := ecam_msgs;
               ata := ata;
               computer := computer;
               resetProcedure := reset_procedure;
               notes := notes;
               warnings := warnings;
               cautions := cautions;
               cbTable := cb_table;
               _source_page := page;
               _fsn_raw := fsn_str |}).

(** ** The driver: [main] from the page texts on

    Reading the PDF, the command line and the file system are outside the
    model: [main] is taken from the point where the pages are known, with
    the merge flag, the content of the output file when it exists, the
    source name and the date as inputs. *)

(** The loop over the blocks: the entries collected and the number of
    blocks skipped. *)
Fixpoint collect (blocks : list Block.t) (messages : list record)
    (skipped : nat) : list record * nat :=
  match blocks with
  | [] => (messages, skipped)
  | block :: blocks' =>
      match parse_block block with
      | Ret (Some entry) => collect blocks' (messages ++ [entry]) skipped
      | Ret None => collect blocks' messages (skipped + 1)
      | Raise _ => collect blocks' messages (skipped + 1)
      end
  end.

(** A database file read back with [json.load]: its ["messages"] list
    when the key is there. *)
Record database : Type := { db_messages : option (list record) }.

Definition mem_id (ids : list str) (m : record) : bool :=
  existsb (str_eqb (id m)) ids.

(** The merge step: keep what the file has, append the entries whose id
    the file does not have. *)
Definition merge_existing (existing : database) (messages : list record)
    : outcome (list record) :=
  let existing_ids :=
    List.map id (match db_messages existing with Some ms => ms | None => [] end) in
  let new_entries := filter (fun m => negb (mem_id existing_ids m)) messages in
  match db_messages existing with
  | Some ms => Ret (ms ++ new_entries)
  | None => Raise (KeyError "messages")
  end.

Record output : Type := {
  version : str;
  lastUpdated : str;
  source : str;
  messages : list record
}.

Definition main (pdf today : str) (merge : bool) (out_file : option database)
    (pages : list Page.t) : outcome (output * nat) :=
  let blocks := split_into_blocks pages in
  let '(messages, skipped) := collect blocks [] 0 in
  messages <- match merge, out_file with
              | true, Some existing => merge_existing existing messages
              | _, _ => Ret messages
              end ;;
  Ret ({| version := str_of "1.0";
          lastUpdated := today;
          source := pdf;
          messages := messages |}, skipped).

(** ** Notions used in the statements *)

(** The groups a pattern sets in every match: those on its spine, outside
    alternatives and repetitions. *)
Fixpoint binds (r : regex) : list nat :=
  match r with
  | Cat r1 r2 => binds r1 ++ binds r2
  | Group i r1 => i :: binds r1
  | Ahead r1 => binds r1
  | _ => []
  end.

Definition bound (i : nat) (cs : caps) : Prop := cap_get i cs <> None.

(** A syntactic check that every match of a pattern reads at least one
    character. *)
Fixpoint consuming (r : regex) : bool :=
  match r with
  | Set_ _ _ | Dot => true
  | Cat r1 r2 => (consuming r1 || consuming r2)%bool
  | Or r1 r2 => (consuming r1 && consuming r2)%bool
  | Repeat _ lo _ _ => Nat.ltb 0 lo
  | Group _ r1 => consuming r1
  | _ => false
  end.

(** [s] is the end of [t]. *)
Definition suffix (s t : str) : Prop := exists pre, t = pre ++ s.

(** A matcher looks at its continuation only at positions of the text
    that remains. *)
Definition local_in_cont
    (body : option char -> str -> caps -> cont -> option mstate) : Prop :=
  forall prev rest cs k1 k2,
    (forall p s c, length s <= length rest -> k1 p s c = k2 p s c) ->
    body prev rest cs k1 = body prev rest cs k2.



(** The two serial-number families of [fsn_to_aircraft]: a range token or
    a single number of the band. *)
Definition ceo_found (fsn_marker : str) : bool :=
  (negb (is_empty (findall0 NOFLAGS Pat.ceo_range fsn_marker))
   || found (re_search NOFLAGS Pat.ceo_number fsn_marker))%bool.
Definition neo_found (fsn_marker : str) : bool :=
  (negb (is_empty (findall0 NOFLAGS Pat.neo_range fsn_marker))
   || found (re_search NOFLAGS Pat.neo_number fsn_marker))%bool.

(** [needle] occurs in [s], letter case aside. *)
Definition contains_icase (needle s : str) : Prop :=
  exists pre mid post, s = pre ++ mid ++ post /\ upper mid = upper needle.

(** The first of the raw rows with a given FIN. *)
Definition first_with_fin (f : str) (cb_entries : list cb_row) : option cb_row :=
  find (fun cb => str_eqb (fin cb) f) cb_entries.

(** The row the partial pattern is meant to give: a reference code and a
    location, no panel, no designation, the default applicability. *)
Definition partial_row (code loc default_fsn : str) : cb_row :=
  {| panel := []; designation := []; fin := code; location := loc;
     fsn := default_fsn |}.

(** The part of an id before its page suffix. *)
Definition id_base_of (first : str) : str :=
  firstn 60 (strip_chars (str_of "-")
               (re_sub NOFLAGS Pat.not_alnum (str_of "-") (lower first))).

(** An id made of a base of at most 60 characters and a page suffix. *)
Definition wf_id (r : record) : Prop :=
  exists base page,
    id r = base ++ str_of "-p" ++ dec page /\ length base <= 60.

(** The blocks on which [parse_block] raises. *)
Definition raises (block : Block.t) : bool :=
  match parse_block block with
  | Raise _ => true
  | Ret _ => false
  end.

(** A header with its leading keyword stripped, in the words of the
    specification: the keyword is the one the segmenter recognises in any
    letter case at the start of the header. *)
Definition leading_keyword_stripped (header : str) : str :=
  strip (if starts_with (str_of "SUBTASK") (upper header)
         then skipn 7 header else header).

(** The block of the scenario: the header, the applicability
    declaration, and the procedure on one line. *)
Definition scenario_header : str :=
  str_of "SUBTASK 24-00-810 - PACK FAULT RESET".

Definition scenario_block (page : Z) : Block.t :=
  {| Block.subtask_header := Some scenario_header;
     Block.text := scenario_header ++ [NL]
                   ++ str_of "** ON A/C FSN 051-070" ++ [NL]
                   ++ str_of "RESET PROCEDURE: 1. Open panel 2. Press button";
     Block.page := page |}.

(** The same block with each step on a line of its own. *)
Definition scenario_block_lines (page : Z) : Block.t :=
  {| Block.subtask_header := Some scenario_header;
     Block.text := scenario_header ++ [NL]
                   ++ str_of "** ON A/C FSN 051-070" ++ [NL]
                   ++ str_of "RESET PROCEDURE:" ++ [NL]
                   ++ str_of "1. Open panel" ++ [NL]
                   ++ str_of "2. Press button";
     Block.page := page |}.

(** A header in which the keyword occurs twice, as the segmenter gives it
    for the text "SUBTASK 1 - A SUBTASK". *)
Definition twice_block : Block.t :=
  {| Block.subtask_header := Some (str_of "SUBTASK 1 - A SUBTASK");
     Block.text := str_of "SUBTASK 1 - A SUBTASK";
     Block.page := 1 |}.

(** One page with two procedures for the same alert. *)
Definition twin_pages : list Page.t :=
  [{| Page.page := 1;
      Page.text := str_of "SUBTASK 21-51 - A." ++ [NL]
                   ++ str_of "ECAM: PACK FAULT" ++ [NL]
                   ++ str_of "SUBTASK 21-52 - B." ++ [NL]
                   ++ str_of "ECAM: PACK FAULT" ++ [NL] |}].

(** A block whose text has no identifier for either pattern. *)
Definition clock_block : Block.t :=
  {| Block.subtask_header := Some (str_of "SUBTASK 31-10 - clock reset");
     Block.text := str_of "SUBTASK 31-10 - clock reset";
     Block.page := 4 |}.

(** A record as a reviewed database file holds it. *)
Definition reviewed (i : str) (note : string) : record :=
  {| id := i; aircraft := [CEO; NEO]; ecamMessages := [str_of "REVIEWED"];
     ata := Some (str_of "21"); computer := []; resetProcedure := [];
     notes := str_of note; warnings := []; cautions := []; cbTable := [];
     _source_page := 1; _fsn_raw := str_of "ALL" |}.

(** A database with the ids x and y, and a page whose parse has the ids
    y and z. *)
Definition prior_records : list record :=
  [reviewed (str_of "fwc-fault-p3") "checked";
   reviewed (str_of "pack-fault-p1") "checked"].

Definition merge_pages : list Page.t :=
  [{| Page.page := 1;
      Page.text := str_of "SUBTASK 21-51 - A." ++ [NL]
                   ++ str_of "ECAM: PACK FAULT" ++ [NL]
                   ++ str_of "SUBTASK 21-52 - B." ++ [NL]
                   ++ str_of "ECAM: BLEED FAULT" ++ [NL] |}].

(** The parse of the pages: the records and the number of blocks
    skipped. *)
Definition fresh_records (pages : list Page.t) : list record :=
  fst (collect (split_into_blocks pages) [] 0).
Definition fresh_skipped (pages : list Page.t) : nat :=
  snd (collect (split_into_blocks pages) [] 0).

Definition document (pdf today : str) (ms : list record) : output :=
  {| version := str_of "1.0"; lastUpdated := today; source := pdf;
     messages := ms |}.

(** A block with two warnings, a caution and a note. *)
Definition advisory_block : Block.t :=
  {| Block.subtask_header := Some (str_of "SUBTASK 29-10 - HYD RESET");
     Block.text := str_of "SUBTASK 29-10 - HYD RESET" ++ [NL]
                   ++ str_of "WARNING: DEPRESSURIZE THE SYSTEM" ++ [NL]
                   ++ str_of "BEFORE YOU OPEN THE PANEL" ++ [NL; NL]
                   ++ str_of "WARNING - KEEP CLEAR OF THE DOORS" ++ [NL; NL]
                   ++ str_of "CAUTION: DO NOT USE FORCE ON THE LEVER" ++ [NL; NL]
                   ++ str_of "NOTE: SEE THE TASK" ++ [NL] ++ str_of "29-10-00";
     Block.page := 7 |}.

(** The scenario block on another page. *)
Definition other_page_block : Block.t := scenario_block 12.

(** The characters of a slug: lower-case letters, digits and the
    hyphen. *)
Definition slug_char (c : char) : bool :=
  (is_lower c || is_digit c || N.eqb c 45%N)%bool.

(** The shape of what a pattern can read: the characters it accepts,
    and the least and the greatest number of them. *)
Fixpoint accepts (fl : flags) (r : regex) (c : char) : bool :=
  match r with
  | Set_ negated items => set_matches fl negated items c
  | Dot => (DOTALL fl || negb (N.eqb c NL))%bool
  | Cat r1 r2 | Or r1 r2 => (accepts fl r1 c || accepts fl r2 c)%bool
  | Repeat r1 _ _ _ | Group _ r1 => accepts fl r1 c
  | _ => false
  end.

Fixpoint min_len (r : regex) : nat :=
  match r with
  | Set_ _ _ | Dot => 1
  | Cat r1 r2 => min_len r1 + min_len r2
  | Or r1 r2 => Nat.min (min_len r1) (min_len r2)
  | Repeat r1 lo _ _ => lo * min_len r1
  | Group _ r1 => min_len r1
  | _ => 0
  end.

Fixpoint max_len (r : regex) : option nat :=
  match r with
  | Set_ _ _ | Dot => Some 1
  | Cat r1 r2 =>
      match max_len r1, max_len r2 with
      | Some a, Some b => Some (a + b)
      | _, _ => None
      end
  | Or r1 r2 =>
      match max_len r1, max_len r2 with
      | Some a, Some b => Some (Nat.max a b)
      | _, _ => None
      end
  | Repeat r1 _ hi _ =>
      match hi, max_len r1 with
      | Some h, Some m => Some (h * m)
      | _, _ => None
      end
  | Group _ r1 => max_len r1
  | _ => Some 0
  end.

Definition shaped (fl : flags) (r : regex) (t : str) : Prop :=
  Forall (fun c => accepts fl r c = true) t
  /\ min_len r <= length t
  /\ forall m, max_len r = Some m -> length t <= m.

(** The groups of a pattern, each with the pattern inside it. *)
Fixpoint groups_of (r : regex) : list (nat * regex) :=
  match r with
  | Cat r1 r2 | Or r1 r2 => groups_of r1 ++ groups_of r2
  | Repeat r1 _ _ _ | Ahead r1 => groups_of r1
  | Group i r1 => (i, r1) :: groups_of r1
  | _ => []
  end.

(** Every group set has the shape of one of the listed patterns. *)
Definition caps_shaped (fl : flags) (G : list (nat * regex)) (cs : caps)
    : Prop :=
  forall i v, cap_get i cs = Some v ->
    exists body, In (i, body) G /\ shaped fl body v.

(** Items and patterns that accept word characters only. *)
Definition word_item (it : citem) : bool :=
  match it with
  | CChar c => is_word c
  | CRange lo hi =>
      ((N.leb 48 lo && N.leb hi 57) || (N.leb 65 lo && N.leb hi 90)
       || (N.leb 97 lo && N.leb hi 122))%bool
  | CDigit | CWord => true
  | CSpace | CNotSpace => false
  end.

Fixpoint word_only (r : regex) : bool :=
  match r with
  | Set_ negated items => (negb negated && forallb word_item items)%bool
  | Dot => false
  | Cat r1 r2 | Or r1 r2 => (word_only r1 && word_only r2)%bool
  | Repeat r1 _ _ _ | Group _ r1 => word_only r1
  | _ => true
  end.

(** A field made of word characters, between [lo] and [hi] of them. *)
Definition word_field (lo hi : nat) (v : str) : Prop :=
  Forall (fun c => is_word c = true) v /\ lo <= length v <= hi.

(** The characters of a designation and of a range of serial numbers. *)
Definition designation_char (c : char) : bool :=
  (is_word c || N.eqb c 47%N || N.eqb c 45%N || N.eqb c 32%N)%bool.
Definition fsn_char (c : char) : bool :=
  (is_digit c || N.eqb c 45%N || N.eqb c 44%N || is_space c)%bool.

(** The shape of a row of the reference table. *)
Definition row_shape (default_fsn : str) (row : cb_row) : Prop :=
  word_field 4 5 (panel row)
  /\ Forall (fun c => designation_char c = true) (designation row)
  /\ word_field 2 6 (fin row)
  /\ word_field 3 3 (location row)
  /\ (fsn row = default_fsn
      \/ (fsn row <> [] /\ Forall (fun c => fsn_char c = true) (fsn row))).

(** A text with two rows of a table, the first with serial numbers. *)
Definition table_text : str :=
  str_of "49VU  AIR COND/ACSC1/SPLY  1CA1  D01  101-150" ++ [NL]
  ++ str_of "121VU HYD/PUMP 2JB e12".

(** A page as the extraction gives it: its number is not negative, and
    its text has no "<". *)
Definition plain_page (p : Page.t) : Prop :=
  (0 <= Page.page p)%Z /\ Forall (fun c => c <> 60%N) (Page.text p).

(** Two pages with one procedure each. *)
Definition first_page : Page.t :=
  {| Page.page := 7;
     Page.text := str_of "SUBTASK 21-51 - A." ++ [NL]
                  ++ str_of "ECAM: PACK FAULT" ++ [NL] |}.
Definition second_page : Page.t :=
  {| Page.page := 12;
     Page.text := str_of "SUBTASK 21-52 - B." ++ [NL]
                  ++ str_of "ECAM: PACK FAULT" ++ [NL] |}.

(** Patterns whose characters all satisfy [P]. *)
Definition item_within (P : char -> bool) (it : citem) : Prop :=
  forall x, citem_has it x = true -> P x = true.

Fixpoint within (P : char -> bool) (r : regex) : Prop :=
  match r with
  | Set_ negated items => negated = false /\ Forall (item_within P) items
  | Dot => False
  | Cat r1 r2 | Or r1 r2 => within P r1 /\ within P r2
  | Repeat r1 _ _ _ | Group _ r1 => within P r1
  | _ => True
  end.

(** The characters of a captured applicability marker: digits, white
    space, commas, hyphens, en dashes and the letters of TO, AND and OR. *)
Definition marker_char (c : char) : bool :=
  (is_digit c || is_space c || N.eqb c 44%N || N.eqb c 45%N || N.eqb c ENDASH
   || existsb (N.eqb (upper_char c)) (str_of "TOANDR"))%bool.

(** A three-digit serial number, and the family its range belongs to. *)
Definition three_digits (n : nat) : str :=
  [(48 + N.of_nat (n / 100))%N; (48 + N.of_nat ((n / 10) mod 10))%N;
   (48 + N.of_nat (n mod 10))%N].

Definition family_of (n : nat) : list str :=
  if (Nat.leb 51 n && Nat.leb n 100)%bool then [CEO]
  else if (Nat.leb 101 n && Nat.leb n 150)%bool then [NEO]
  else [CEO; NEO].

Definition same_lists (a b : list str) : bool :=
  if list_eq_dec (list_eq_dec N.eq_dec) a b then true else false.

(** A text of ASCII characters only. *)
Definition ascii_text (s : str) : Prop :=
  forallb (fun c => N.ltb c 128) s = true.

(** An integer that [str] writes: at most 4300 digits. *)
Definition printable (n : Z) : Prop := (Z.abs n < 10 ^ 4300)%Z.

(** The text of a group of a match, empty when the group took no part. *)
Definition group_text (m : match_obj) (i : nat) : str :=
  match group m i with Some g => g | None => [] end.

(** The raw row of a match of the full-row pattern: its five columns,
    stripped, with the default for an empty column of serial numbers. *)
Definition row_of_match (default_fsn : str) (m : match_obj) : cb_row :=
  {| panel := strip (group_text m 1);
     designation := strip (group_text m 2);
     fin := strip (group_text m 3);
     location := strip (group_text m 4);
     fsn := match strip (group_text m 5) with
            | [] => default_fsn
            | s => s
            end |}.

(** Deduplication by FIN as the specification words it: a row is kept,
    and every later row with its FIN is dropped. *)
Fixpoint first_occurrences (rows : list cb_row) : list cb_row :=
  match rows with
  | [] => []
  | e :: rows' =>
      e :: filter (fun x => negb (str_eqb (fin x) (fin e)))
             (first_occurrences rows')
  end.

(** Three rows, the second with the FIN of the first. *)
Definition repeated_fin_text : str :=
  str_of "49VU AIR 1CA1 D01 x 50VU HYD 1CA1 D02 x 51VU OIL 2CB2 D03".

(** A block without header and without anything an identifier pattern
    finds. *)
Definition bare_block : Block.t :=
  {| Block.subtask_header := None;
     Block.text := str_of "no alert here";
     Block.page := 4 |}.

(** * Properties *)

(** ** The matcher *)

Lemma suffix_refl s : suffix s s.
Proof. exists []. reflexivity. Qed.

Lemma suffix_trans s t u : suffix s t -> suffix t u -> suffix s u.
Proof.
  intros [p Hp] [q Hq]. exists (q ++ p). subst. now rewrite app_assoc.
Qed.

Lemma suffix_cons c s : suffix s (c :: s).
Proof. exists [c]. reflexivity. Qed.

Lemma suffix_length s t : suffix s t -> length s <= length t.
Proof. intros [p Hp]. subst. rewrite length_app. lia. Qed.

Lemma suffix_skipn s t : suffix s t -> s = skipn (length t - length s) t.
Proof.
  intros [p Hp]. subst. rewrite length_app.
  replace (length p + length s - length s) with (length p) by lia.
  now rewrite skipn_app, skipn_all, Nat.sub_diag.
Qed.

Create HintDb rx.
#[local] Hint Resolve suffix_refl suffix_cons : rx.

Section MatcherFacts.

Variable fl : flags.

Lemma bound_cons i j v cs : i = j \/ bound i cs -> bound i ((j, v) :: cs).
Proof.
  unfold bound. simpl. intros H. destruct (Nat.eqb_spec i j) as [E | E].
  - discriminate.
  - destruct H as [H | H]; [contradiction | exact H].
Qed.

(** What a successful run of a repetition hands to its continuation, given
    the same fact for its body. *)
Lemma rloop_inv body lo hi greedy k
    (Hbody : forall prev rest cs k' x,
        body prev rest cs k' = Some x ->
        exists p s c, k' p s c = Some x /\ suffix s rest /\
                      (forall i, bound i cs -> bound i c)) :
  forall fuel n prev rest cs x,
    rloop body lo hi greedy k fuel n prev rest cs = Some x ->
    exists p s c, k p s c = Some x /\ suffix s rest /\
                  (forall i, bound i cs -> bound i c) /\
                  (n < lo -> length s < length rest).
Proof.
  induction fuel as [| fuel IH]; intros n prev rest cs x H; [discriminate |].
  assert (Hagain : forall y,
    (if below n hi
     then body prev rest cs
            (fun p s c => if Nat.ltb (length s) (length rest)
                          then rloop body lo hi greedy k fuel (S n) p s c
                          else None)
     else None) = Some y ->
    exists p s c, k p s c = Some y /\ suffix s rest /\
                  (forall i, bound i cs -> bound i c) /\
                  (n < lo -> length s < length rest)).
  { intros y. destruct (below n hi); [| discriminate]. intros Hb.
    apply Hbody in Hb. destruct Hb as (p1 & s1 & c1 & Hk & Hsuf & Hcs).
    destruct (Nat.ltb_spec (length s1) (length rest)) as [Hlt | Hge];
      [| discriminate].
    apply IH in Hk. destruct Hk as (p2 & s2 & c2 & Hk & Hsuf2 & Hcs2 & _).
    exists p2, s2, c2. repeat split; auto.
    - eapply suffix_trans; eassumption.
    - intros _. apply suffix_length in Hsuf2. lia. }
  assert (Hleave : forall y,
    (if Nat.leb lo n then k prev rest cs else None) = Some y ->
    exists p s c, k p s c = Some y /\ suffix s rest /\
                  (forall i, bound i cs -> bound i c) /\
                  (n < lo -> length s < length rest)).
  { intros y. destruct (Nat.leb_spec lo n); [| discriminate]. intros Hk.
    exists prev, rest, cs. repeat split; auto with rx. lia. }
  simpl in H. destruct greedy.
  - destruct (if below n hi then _ else None) as [y |].
    + apply Hagain. exact H.
    + apply Hleave. exact H.
  - destruct (if Nat.leb lo n then _ else None) as [y |].
    + apply Hleave. exact H.
    + apply Hagain. exact H.
Qed.

(** A successful match reaches its continuation at a later (or the same)
    position of the same text, with the groups of the pattern's spine set
    and none of the earlier ones lost. *)
Lemma rmatch_inv r : forall prev rest cs k x,
  rmatch fl r prev rest cs k = Some x ->
  exists p s c, k p s c = Some x /\ suffix s rest /\
                (forall i, In i (binds r) \/ bound i cs -> bound i c).
Proof.
  induction r as [| neg items | | r1 IH1 r2 IH2 | r1 IH1 r2 IH2
                 | r1 IH1 lo hi greedy | j r1 IH1 | r1 IH1 | | |];
    intros prev rest cs k x H; cbn [rmatch] in H.
  - exists prev, rest, cs. repeat split; auto with rx.
    intros i [[] | Hi]; exact Hi.
  - destruct rest as [| c rest']; [discriminate |].
    destruct (set_matches fl neg items c); [| discriminate].
    exists (Some c), rest', cs. repeat split; auto with rx.
    intros i [[] | Hi]; exact Hi.
  - destruct rest as [| c rest']; [discriminate |].
    destruct (DOTALL fl || negb (N.eqb c NL))%bool; [| discriminate].
    exists (Some c), rest', cs. repeat split; auto with rx.
    intros i [[] | Hi]; exact Hi.
  - apply IH1 in H. destruct H as (p1 & s1 & c1 & H & Hl1 & Hb1).
    apply IH2 in H. destruct H as (p2 & s2 & c2 & H & Hl2 & Hb2).
    exists p2, s2, c2. repeat split; auto.
    + eapply suffix_trans; eassumption.
    + intros i [Hi | Hi]; simpl in Hi.
      * apply in_app_or in Hi. destruct Hi as [Hi | Hi]; auto.
      * auto.
  - destruct (rmatch fl r1 prev rest cs k) as [y |] eqn:E.
    + inversion H; subst y. apply IH1 in E.
      destruct E as (p & s & c & Hk & Hl & Hb). exists p, s, c.
      repeat split; auto. intros i [[] | Hi]; auto.
    + apply IH2 in H. destruct H as (p & s & c & Hk & Hl & Hb).
      exists p, s, c. repeat split; auto. intros i [[] | Hi]; auto.
  - apply rloop_inv in H.
    + destruct H as (p & s & c & Hk & Hl & Hb & _). exists p, s, c.
      repeat split; auto. intros i [[] | Hi]; auto.
    + intros prev' rest' cs' k' x' H'. apply IH1 in H'.
      destruct H' as (p & s & c & Hk & Hl & Hb). exists p, s, c.
      repeat split; auto.
  - apply IH1 in H. destruct H as (p & s & c & Hk & Hl & Hb).
    eexists p, s, _. split; [exact Hk |]. split; [exact Hl |].
    intros i [[Hi | Hi] | Hi]; apply bound_cons; auto.
  - destruct (rmatch fl r1 prev rest cs (fun p s c => Some (p, s, c)))
      as [[[p0 s0] c0] |] eqn:E; [| discriminate].
    apply IH1 in E. destruct E as (p & s & c & Hk & Hl & Hb).
    inversion Hk; subst p s c. exists prev, rest, c0.
    repeat split; auto with rx.
  - destruct (xorb (word_before prev) (word_after rest)); [| discriminate].
    exists prev, rest, cs. repeat split; auto with rx.
    intros i [[] | Hi]; exact Hi.
  - destruct rest; [| discriminate].
    exists prev, [], cs. repeat split; auto with rx.
    intros i [[] | Hi]; exact Hi.
  - destruct prev; [discriminate |].
    exists None, rest, cs. repeat split; auto with rx.
    intros i [[] | Hi]; exact Hi.
Qed.

(** A match of a consuming pattern ends after the position it started
    from. *)
Lemma rmatch_consuming r : consuming r = true ->
  forall prev rest cs k x,
    rmatch fl r prev rest cs k = Some x ->
    exists p s c, k p s c = Some x /\ length s < length rest.
Proof.
  induction r as [| neg items | | r1 IH1 r2 IH2 | r1 IH1 r2 IH2
                 | r1 IH1 lo hi greedy | j r1 IH1 | r1 IH1 | | |];
    cbn [consuming]; intros Hc prev rest cs k x H; cbn [rmatch] in H;
    try discriminate.
  - destruct rest as [| c rest']; [discriminate |].
    destruct (set_matches fl neg items c); [| discriminate].
    exists (Some c), rest', cs. split; simpl; auto.
  - destruct rest as [| c rest']; [discriminate |].
    destruct (DOTALL fl || negb (N.eqb c NL))%bool; [| discriminate].
    exists (Some c), rest', cs. split; simpl; auto.
  - apply orb_true_iff in Hc. destruct Hc as [Hc | Hc].
    + apply (IH1 Hc) in H. destruct H as (p1 & s1 & c1 & H & Hl1).
      apply rmatch_inv in H. destruct H as (p2 & s2 & c2 & H & Hl2 & _).
      apply suffix_length in Hl2. exists p2, s2, c2. split; auto; lia.
    + apply rmatch_inv in H. destruct H as (p1 & s1 & c1 & H & Hl1 & _).
      apply (IH2 Hc) in H. destruct H as (p2 & s2 & c2 & H & Hl2).
      apply suffix_length in Hl1. exists p2, s2, c2. split; auto; lia.
  - apply andb_true_iff in Hc. destruct Hc as [Hc1 Hc2].
    destruct (rmatch fl r1 prev rest cs k) as [y |] eqn:E.
    + inversion H; subst y. exact (IH1 Hc1 _ _ _ _ _ E).
    + exact (IH2 Hc2 _ _ _ _ _ H).
  - apply rloop_inv in H.
    + destruct H as (p & s & c & Hk & _ & _ & Hlt). exists p, s, c.
      split; auto. apply Hlt. apply Nat.ltb_lt. exact Hc.
    + intros prev' rest' cs' k' x' H'. apply rmatch_inv in H'.
      destruct H' as (p & s & c & Hk & Hl & Hb). exists p, s, c.
      repeat split; auto.
  - apply (IH1 Hc) in H. destruct H as (p & s & c & Hk & Hl).
    eexists p, s, _. split; [exact Hk | exact Hl].
Qed.

(** One attempt. *)
Lemma match_at_inv r adv prev rest p s c :
  match_at fl r adv prev rest = Some (p, s, c) ->
  suffix s rest
  /\ (forall i, In i (binds r) -> bound i c)
  /\ (adv = true \/ consuming r = true -> length s < length rest).
Proof.
  intros H. unfold match_at in H.
  assert (Hk : forall p' s' c',
    (if (adv && Nat.eqb (length s') (length rest))%bool then None
     else Some (p', s', c')) = Some (p, s, c) ->
    p' = p /\ s' = s /\ c' = c /\
    (adv = true -> length s' <> length rest)).
  { intros p' s' c' E.
    destruct adv; simpl in E.
    - destruct (Nat.eqb_spec (length s') (length rest)); [discriminate |].
      inversion E; subst. repeat split; auto.
    - inversion E. repeat split; auto. discriminate. }
  split; [| split].
  - apply rmatch_inv in H. destruct H as (p' & s' & c' & E & Hs & _).
    apply Hk in E. destruct E as (_ & -> & _). exact Hs.
  - apply rmatch_inv in H. destruct H as (p' & s' & c' & E & _ & Hb).
    apply Hk in E. destruct E as (_ & _ & -> & _). auto.
  - intros [Ha | Hc].
    + apply rmatch_inv in H. destruct H as (p' & s' & c' & E & Hs & _).
      apply Hk in E. destruct E as (_ & -> & _ & Hne).
      apply suffix_length in Hs. specialize (Hne Ha). lia.
    + apply (rmatch_consuming _ Hc) in H.
      destruct H as (p' & s' & c' & E & Hlt).
      apply Hk in E. destruct E as (_ & -> & _). exact Hlt.
Qed.

(** The search: where the match starts and where it ends. *)
Lemma search_from_inv r : forall rest adv prev n from p s c,
  search_from fl r adv prev rest = Some (n, from, (p, s, c)) ->
  n <= length rest /\ from = skipn n rest /\ suffix s from
  /\ (forall i, In i (binds r) -> bound i c)
  /\ (consuming r = true -> length s < length from)
  /\ (adv = true -> n = 0 -> length s < length from).
Proof.
  induction rest as [| a rest IH]; intros adv prev n from p s c H;
    cbn [search_from] in H.
  - destruct (match_at fl r adv prev []) as [[[p0 s0] c0] |] eqn:E;
      [| discriminate].
    inversion H; subst. apply match_at_inv in E.
    destruct E as (Hs & Hb & Hlt). repeat split; auto.
  - destruct (match_at fl r adv prev (a :: rest)) as [[[p0 s0] c0] |] eqn:E.
    + inversion H; subst. apply match_at_inv in E.
      destruct E as (Hs & Hb & Hlt). repeat split; auto. simpl; lia.
    + destruct (search_from fl r false (Some a) rest)
        as [[[n1 from1] e1] |] eqn:E1; [| discriminate].
      inversion H; subst. apply IH in E1.
      destruct E1 as (Hn & Hfrom & Hs & Hb & Hc & _).
      repeat split; auto; [simpl; lia | discriminate].
Qed.


(** Every match of a scan has the groups of the pattern's spine, and is
    not empty when the pattern is consuming. *)
Lemma scan_each r : forall fuel adv off prev rest,
  Forall (fun m => (forall i, In i (binds r) -> bound i (m_caps m))
                   /\ (consuming r = true -> m_start m < m_end m))
    (scan fl fuel r adv off prev rest).
Proof.
  induction fuel as [| fuel IH]; intros adv off prev rest; simpl; [constructor |].
  destruct (search_from fl r adv prev rest) as [[[n from] [[p after] c]] |]
    eqn:E; [| constructor].
  constructor; [| apply IH].
  apply search_from_inv in E. destruct E as (_ & _ & _ & Hb & Hc & _).
  simpl. split; [exact Hb |]. intros H. specialize (Hc H). lia.
Qed.



Lemma finditer_each r s :
  Forall (fun m => (forall i, In i (binds r) -> bound i (m_caps m))
                   /\ (consuming r = true -> m_start m < m_end m))
    (finditer fl r s).
Proof. apply scan_each. Qed.


(** *** The loop counters never run out *)

Lemma rloop_step body lo hi greedy k fuel n prev rest cs :
  rloop body lo hi greedy k (S fuel) n prev rest cs =
    if greedy
    then match (if below n hi
                then body prev rest cs
                       (fun p s c =>
                          if Nat.ltb (length s) (length rest)
                          then rloop body lo hi greedy k fuel (S n) p s c
                          else None)
                else None) with
         | Some x => Some x
         | None => if Nat.leb lo n then k prev rest cs else None
         end
    else match (if Nat.leb lo n then k prev rest cs else None) with
         | Some x => Some x
         | None =>
             if below n hi
             then body prev rest cs
                    (fun p s c =>
                       if Nat.ltb (length s) (length rest)
                       then rloop body lo hi greedy k fuel (S n) p s c
                       else None)
             else None
         end.
Proof. reflexivity. Qed.

Lemma rloop_ext body lo hi greedy (Hbody : local_in_cont body) :
  forall fuel k1 k2 n prev rest cs,
    (forall p s c, length s <= length rest -> k1 p s c = k2 p s c) ->
    rloop body lo hi greedy k1 fuel n prev rest cs
    = rloop body lo hi greedy k2 fuel n prev rest cs.
Proof.
  induction fuel as [| fuel IH]; intros k1 k2 n prev rest cs H;
    [reflexivity |].
  rewrite !rloop_step. rewrite (H prev rest cs (Nat.le_refl (length rest))).
  replace (body prev rest cs
             (fun p s c => if Nat.ltb (length s) (length rest)
                           then rloop body lo hi greedy k1 fuel (S n) p s c
                           else None))
    with (body prev rest cs
             (fun p s c => if Nat.ltb (length s) (length rest)
                           then rloop body lo hi greedy k2 fuel (S n) p s c
                           else None)); [reflexivity |].
  apply Hbody. intros p s c Hs.
  destruct (Nat.ltb_spec (length s) (length rest)); [| reflexivity].
  symmetry. apply IH. intros p' s' c' Hs'. apply H. lia.
Qed.

Lemma rmatch_ext r : local_in_cont (rmatch fl r).
Proof.
  unfold local_in_cont.
  induction r as [| neg items | | r1 IH1 r2 IH2 | r1 IH1 r2 IH2
                 | r1 IH1 lo hi greedy | j r1 IH1 | r1 IH1 | | |];
    intros prev rest cs k1 k2 H; cbn [rmatch].
  - now apply H.
  - destruct rest as [| c rest']; [reflexivity |].
    destruct (set_matches fl neg items c); [| reflexivity].
    apply H. simpl. lia.
  - destruct rest as [| c rest']; [reflexivity |].
    destruct (DOTALL fl || negb (N.eqb c NL))%bool; [| reflexivity].
    apply H. simpl. lia.
  - apply IH1. intros p s c Hs. apply IH2. intros p' s' c' Hs'.
    apply H. lia.
  - rewrite (IH1 prev rest cs k1 k2 H), (IH2 prev rest cs k1 k2 H).
    reflexivity.
  - apply rloop_ext; [exact IH1 | exact H].
  - apply IH1. intros p s c Hs. now apply H.
  - destruct (rmatch fl r1 prev rest cs (fun p s c => Some (p, s, c)))
      as [[[p0 s0] c0] |]; [| reflexivity].
    now apply H.
  - destruct (xorb (word_before prev) (word_after rest)); [| reflexivity].
    now apply H.
  - destruct rest; [| reflexivity]. now apply H.
  - destruct prev; [reflexivity |]. now apply H.
Qed.

(** The counter of a repetition is never the reason a round is refused:
    any two counters above the length of the remaining text give the same
    result. *)
Lemma rloop_fuel_enough r lo hi greedy k : forall fuel1 fuel2 n prev rest cs,
  length rest < fuel1 -> length rest < fuel2 ->
  rloop (rmatch fl r) lo hi greedy k fuel1 n prev rest cs
  = rloop (rmatch fl r) lo hi greedy k fuel2 n prev rest cs.
Proof.
  induction fuel1 as [| fuel1 IH]; intros fuel2 n prev rest cs H1 H2; [lia |].
  destruct fuel2 as [| fuel2]; [lia |].
  rewrite !rloop_step.
  replace (rmatch fl r prev rest cs
             (fun p s c =>
                if Nat.ltb (length s) (length rest)
                then rloop (rmatch fl r) lo hi greedy k fuel1 (S n) p s c
                else None))
    with (rmatch fl r prev rest cs
             (fun p s c =>
                if Nat.ltb (length s) (length rest)
                then rloop (rmatch fl r) lo hi greedy k fuel2 (S n) p s c
                else None)); [reflexivity |].
  apply rmatch_ext. intros p s c Hs.
  destruct (Nat.ltb_spec (length s) (length rest)); [| reflexivity].
  symmetry. apply IH; lia.
Qed.

(** The counter of the scanner is never the reason a scan stops: from
    twice the length of the text (and two more) on, one more round
    changes nothing. *)
Lemma scan_fuel_enough r : forall fuel (adv : bool) off prev (rest : str),
  2 * length rest + (if adv then 1 else 2) <= fuel ->
  scan fl (S fuel) r adv off prev rest = scan fl fuel r adv off prev rest.
Proof.
  induction fuel as [| fuel IH]; intros adv off prev rest H;
    [destruct adv; lia |].
  cbn [scan].
  destruct (search_from fl r adv prev rest) as [[[n from] [[p after] c]] |]
    eqn:E; [| reflexivity].
  f_equal. apply search_from_inv in E.
  destruct E as (Hn & Hfrom & Hs & _ & _ & Hadv).
  apply suffix_length in Hs.
  assert (Hlen : length from = length rest - n)
    by (subst from; apply length_skipn).
  cbn [mk_match m_start m_end].
  apply (IH (Nat.eqb (off + n + (length from - length after)) (off + n))).
  destruct (Nat.eqb_spec (off + n + (length from - length after)) (off + n))
    as [E0 | E0].
  - destruct adv.
    + destruct n as [| n]; [specialize (Hadv eq_refl eq_refl); lia | lia].
    + lia.
  - destruct adv; lia.
Qed.

Lemma finditer_fuel_enough r s : forall extra,
  scan fl (2 * length s + 2 + extra) r false 0 None s = finditer fl r s.
Proof.
  induction extra as [| extra IH].
  - unfold finditer. f_equal. lia.
  - rewrite <- IH. replace (2 * length s + 2 + S extra)
      with (S (2 * length s + 2 + extra)) by lia.
    apply scan_fuel_enough. lia.
Qed.

End MatcherFacts.

(** ** Block splitting *)











Example split_into_blocks_twin :
  List.map (fun b => (Block.subtask_header b, Block.text b, Block.page b))
    (split_into_blocks twin_pages)
  = [(Some (str_of "SUBTASK 21-51 - A"),
      str_of "SUBTASK 21-51 - A." ++ [NL] ++ str_of "ECAM: PACK FAULT" ++ [NL],
      1%Z);
     (Some (str_of "SUBTASK 21-52 - B"),
      str_of "SUBTASK 21-52 - B." ++ [NL] ++ str_of "ECAM: PACK FAULT" ++ [NL],
      1%Z)].
Proof. vm_compute. reflexivity. Qed.

(** ** Applicability *)

Lemma fsn_to_aircraft_cases (m : str) :
  fsn_to_aircraft m =
    if (is_empty m || contains (str_of "ALL") (upper m))%bool then [CEO; NEO]
    else match ceo_found m, neo_found m with
         | true, true => [CEO; NEO]
         | true, false => [CEO]
         | false, true => [NEO]
         | false, false => [CEO; NEO]
         end.
Proof.
  unfold fsn_to_aircraft.
  destruct (is_empty m || contains (str_of "ALL") (upper m))%bool;
    [reflexivity |].
  fold (ceo_found m). fold (neo_found m).
  destruct (ceo_found m), (neo_found m); reflexivity.
Qed.

(** C5.  For every marker the result is one of [CEO], [NEO] and
    [CEO; NEO], hence a non-empty part of the two variants; and when
    neither serial-number family is found it is both variants. *)
Theorem fsn_to_aircraft_nonempty (fsn_marker : str) :
  fsn_to_aircraft fsn_marker <> []
  /\ incl (fsn_to_aircraft fsn_marker) [CEO; NEO]
  /\ (ceo_found fsn_marker = false -> neo_found fsn_marker = false ->
      fsn_to_aircraft fsn_marker = [CEO; NEO]).
Proof.
  rewrite fsn_to_aircraft_cases.
  destruct (is_empty fsn_marker
            || contains (str_of "ALL") (upper fsn_marker))%bool.
  - repeat split; [discriminate | apply incl_refl].
  - destruct (ceo_found fsn_marker), (neo_found fsn_marker);
      repeat split; try discriminate; try apply incl_refl;
      intros x [Hx | []]; subst; simpl; auto.
Qed.

Lemma starts_with_app (n post : str) : starts_with n (n ++ post) = true.
Proof.
  induction n as [| c n IH]; [reflexivity |].
  simpl. now rewrite N.eqb_refl.
Qed.

Lemma contains_app (n : str) : forall pre post,
  contains n (pre ++ n ++ post) = true.
Proof.
  induction pre as [| c pre IH]; intros post.
  - simpl app. destruct (n ++ post) eqn:E; simpl;
      rewrite <- E, starts_with_app; reflexivity.
  - simpl. rewrite IH. apply orb_true_r.
Qed.

(** C6.  A marker that is empty, or in which ALL occurs in any letter
    case, resolves to exactly both variants. *)
Theorem fsn_to_aircraft_all (fsn_marker : str) :
  fsn_marker = [] \/ contains_icase (str_of "ALL") fsn_marker ->
  fsn_to_aircraft fsn_marker = [CEO; NEO].
Proof.
  intros H. unfold fsn_to_aircraft.
  replace (is_empty fsn_marker
           || contains (str_of "ALL") (upper fsn_marker))%bool with true;
    [reflexivity |].
  symmetry. destruct H as [-> | (pre & mid & post & -> & Hmid)];
    [reflexivity |].
  apply orb_true_iff. right. unfold upper in *.
  rewrite !map_app, Hmid. apply contains_app.
Qed.

Lemma fsn_to_aircraft_all_witness :
  fsn_to_aircraft (str_of "fsn All units") = [CEO; NEO].
Proof.
  apply fsn_to_aircraft_all. right.
  exists (str_of "fsn "), (str_of "All"), (str_of " units").
  split; reflexivity.
Defined.

Lemma fsn_to_aircraft_nonempty_witness :
  fsn_to_aircraft (str_of "SEE NOTE") = [CEO; NEO].
Proof.
  apply (proj2 (proj2 (fsn_to_aircraft_nonempty (str_of "SEE NOTE"))));
    vm_compute; reflexivity.
Defined.

(** ** The reference table *)

Lemma str_eqb_eq (a b : str) : str_eqb a b = true <-> a = b.
Proof.
  revert b. induction a as [| x a IH]; intros [| y b]; simpl;
    try (split; [discriminate | discriminate]); [tauto |].
  rewrite andb_true_iff, N.eqb_eq, IH. split.
  - intros [-> ->]. reflexivity.
  - intros E. inversion E. auto.
Qed.

Lemma existsb_str_eqb (x : str) (l : list str) :
  existsb (str_eqb x) l = true <-> In x l.
Proof.
  rewrite existsb_exists. split.
  - intros (y & Hy & E). apply str_eqb_eq in E. now subst.
  - intros H. exists x. split; [exact H | now apply str_eqb_eq].
Qed.

(** What deduplication keeps: rows with pairwise different FINs, none of
    them seen before, each the first raw row with its FIN. *)
Lemma dedup_fin_spec : forall cb_entries seen_fins,
  NoDup (List.map fin (dedup_fin seen_fins cb_entries))
  /\ forall r, In r (dedup_fin seen_fins cb_entries) ->
       ~ In (fin r) seen_fins /\ first_with_fin (fin r) cb_entries = Some r.
Proof.
  induction cb_entries as [| cb rest IH]; intros seen; simpl.
  - split; [constructor | intros r []].
  - destruct (existsb (str_eqb (fin cb)) seen) eqn:E; simpl.
    + destruct (IH seen) as [Hnd Hin]. split; [exact Hnd |].
      intros r Hr. destruct (Hin r Hr) as [Hns Hf]. split; [exact Hns |].
      unfold first_with_fin in *. simpl.
      destruct (str_eqb (fin cb) (fin r)) eqn:E2; [| exact Hf].
      apply str_eqb_eq in E2. apply existsb_str_eqb in E.
      rewrite E2 in E. contradiction.
    + destruct (IH (fin cb :: seen)) as [Hnd Hin]. split.
      * constructor; [| exact Hnd]. intros Hc. apply in_map_iff in Hc.
        destruct Hc as (r & Hfr & Hr). destruct (Hin r Hr) as [Hns _].
        apply Hns. left. now symmetry.
      * intros r [-> | Hr].
        -- split.
           ++ intros Hc. apply existsb_str_eqb in Hc. congruence.
           ++ unfold first_with_fin. simpl.
              now rewrite (proj2 (str_eqb_eq (fin r) (fin r)) eq_refl).
        -- destruct (Hin r Hr) as [Hns Hf]. split.
           ++ intros Hc. apply Hns. now right.
           ++ unfold first_with_fin in *. simpl.
              destruct (str_eqb (fin cb) (fin r)) eqn:E2; [| exact Hf].
              apply str_eqb_eq in E2. exfalso. apply Hns. now left.
Qed.

Lemma in_firstn {A} (x : A) : forall n l, In x (firstn n l) -> In x l.
Proof.
  induction n as [| n IH]; intros [| y l]; simpl; try tauto.
  intros [H | H]; [now left | right; now apply IH].
Qed.

Lemma NoDup_firstn {A} (n : nat) : forall l : list A,
  NoDup l -> NoDup (firstn n l).
Proof.
  induction n as [| n IH]; intros [| x l] H; simpl; try constructor.
  - inversion H; subst. intros Hc. apply in_firstn in Hc. contradiction.
  - inversion H; subst. now apply IH.
Qed.

Lemma map_exn_total {A B} (f : A -> outcome B) (l : list A) :
  Forall (fun x => exists y, f x = Ret y) l -> exists ys, map_exn f l = Ret ys.
Proof.
  induction 1 as [| x l [y Hy] _ [ys Hys]]; simpl.
  - now exists [].
  - rewrite Hy. simpl. rewrite Hys. simpl. now exists (y :: ys).
Qed.

Lemma strip_opt_bound (m : match_obj) (i : nat) :
  bound i (m_caps m) -> exists s, strip_opt (group m i) = Ret s.
Proof.
  unfold bound, group. destruct (cap_get i (m_caps m)) as [g |]; [| tauto].
  intros _. now exists (strip g).
Qed.

(** Every row of the full pattern has its five groups, so no row raises. *)
Lemma cb_rows_of_match_full (default_fsn : str) (m : match_obj) :
  (forall i, In i (binds Pat.cb_full) -> bound i (m_caps m)) ->
  exists rows, cb_rows_of_match 5 default_fsn m = Ret rows.
Proof.
  intros Hb. unfold cb_rows_of_match, strip_nth.
  cbn [groups seq List.map length Nat.leb Nat.ltb nth].
  destruct (@strip_opt_bound m 1) as [s1 ->]; [apply Hb; simpl; auto 10 |].
  destruct (@strip_opt_bound m 2) as [s2 ->]; [apply Hb; simpl; auto 10 |].
  destruct (@strip_opt_bound m 3) as [s3 ->]; [apply Hb; simpl; auto 10 |].
  destruct (@strip_opt_bound m 4) as [s4 ->]; [apply Hb; simpl; auto 10 |].
  destruct (@strip_opt_bound m 5) as [s5 ->]; [apply Hb; simpl; auto 10 |].
  simpl. eexists. reflexivity.
Qed.

(** The partial pattern has two groups: its matches add no row. *)
Lemma cb_rows_of_match_partial (default_fsn : str) (m : match_obj) :
  cb_rows_of_match 2 default_fsn m = Ret [].
Proof. reflexivity. Qed.

Lemma map_exn_partial (default_fsn : str) (ms : list match_obj) :
  map_exn (cb_rows_of_match 2 default_fsn) ms = Ret (List.map (fun _ => []) ms).
Proof.
  induction ms as [| m ms IH]; [reflexivity |].
  cbn [map_exn List.map]. rewrite cb_rows_of_match_partial. simpl.
  rewrite IH. reflexivity.
Qed.

Lemma concat_nils {A B} (l : list A) :
  concat (List.map (fun _ => @nil B) l) = [].
Proof. induction l; simpl; auto. Qed.

(** The rows collected are those of the full pattern, whatever the
    partial pattern finds. *)
Lemma cb_collect_total (text default_fsn : str) :
  exists rows,
    map_exn (cb_rows_of_match 5 default_fsn) (finditer I_ Pat.cb_full text)
      = Ret rows
    /\ cb_collect cb_patterns text default_fsn [] = Ret (concat rows).
Proof.
  destruct (@map_exn_total _ _ (cb_rows_of_match 5 default_fsn)
              (finditer I_ Pat.cb_full text)) as [rows Hrows].
  { eapply Forall_impl; [| apply (finditer_each I_ Pat.cb_full text)].
    simpl. intros m [Hb _]. now apply cb_rows_of_match_full. }
  exists rows. split; [exact Hrows |].
  unfold cb_patterns. cbn [cb_collect]. rewrite Hrows. cbn [bind app].
  destruct (concat rows) as [| r rs] eqn:E; [| reflexivity].
  cbn [is_empty negb]. rewrite map_exn_partial. cbn [bind app].
  rewrite concat_nils. reflexivity.
Qed.

Lemma parse_cb_table_total (text default_fsn : str) :
  exists rows, parse_cb_table text default_fsn = Ret rows.
Proof.
  destruct (cb_collect_total text default_fsn) as (raw & _ & Hc).
  unfold parse_cb_table. rewrite Hc. cbn [bind]. eexists. reflexivity.
Qed.

Lemma filter_all {A} (f : A -> bool) (l : list A) :
  (forall x, f x = true) -> filter f l = l.
Proof.
  intros H. induction l as [| x l IH]; cbn [filter]; [reflexivity |].
  now rewrite H, IH.
Qed.

Lemma filter_twice {A} (f g : A -> bool) (l : list A) :
  filter f (filter g l) = filter (fun x => (g x && f x)%bool) l.
Proof.
  induction l as [| x l IH]; cbn [filter]; [reflexivity |].
  destruct (g x); cbn [filter andb]; [destruct (f x) |]; now rewrite IH.
Qed.

(** The loop of the code and the deduplication of the specification give
    the same rows. *)
Lemma dedup_fin_first_occurrences : forall cb_entries seen_fins,
  dedup_fin seen_fins cb_entries
  = filter (fun x => negb (existsb (str_eqb (fin x)) seen_fins))
      (first_occurrences cb_entries).
Proof.
  induction cb_entries as [| cb rest IH]; intros seen;
    cbn [dedup_fin first_occurrences filter]; [reflexivity |].
  destruct (existsb (str_eqb (fin cb)) seen) eqn:E; cbn [negb].
  - rewrite IH, filter_twice. apply filter_ext. intros x.
    destruct (str_eqb (fin x) (fin cb)) eqn:Ex; [| reflexivity].
    apply str_eqb_eq in Ex. rewrite Ex, E. reflexivity.
  - f_equal. rewrite IH, filter_twice. apply filter_ext. intros x.
    cbn [existsb]. now rewrite negb_orb.
Qed.

Lemma first_occurrences_complete : forall cb_entries e,
  In e cb_entries ->
  In (fin e) (List.map fin (first_occurrences cb_entries)).
Proof.
  induction cb_entries as [| cb rest IH]; intros e He; [destruct He |].
  cbn [first_occurrences List.map]. destruct He as [<- | He]; [now left |].
  destruct (str_eqb (fin e) (fin cb)) eqn:E.
  - left. symmetry. now apply str_eqb_eq.
  - right. specialize (IH e He). apply in_map_iff in IH.
    destruct IH as (r & Hr & Hin). apply in_map_iff. exists r.
    split; [exact Hr |]. apply filter_In. split; [exact Hin |].
    now rewrite Hr, E.
Qed.

(** Every match of the full-row pattern gives its row. *)
Lemma cb_rows_of_match_row (default_fsn : str) (m : match_obj)
    (rows : list cb_row) :
  cb_rows_of_match 5 default_fsn m = Ret rows ->
  rows = [row_of_match default_fsn m].
Proof.
  unfold cb_rows_of_match, strip_nth, row_of_match, group_text.
  cbn [groups seq List.map length Nat.leb Nat.ltb nth]. unfold group.
  destruct (cap_get 1 (m_caps m)) as [g1 |]; [| discriminate].
  destruct (cap_get 2 (m_caps m)) as [g2 |]; [| discriminate].
  destruct (cap_get 3 (m_caps m)) as [g3 |]; [| discriminate].
  destruct (cap_get 4 (m_caps m)) as [g4 |]; [| discriminate].
  destruct (cap_get 5 (m_caps m)) as [g5 |]; [| discriminate].
  cbn [strip_opt bind]. intros H. injection H as <-.
  destruct (strip g5); reflexivity.
Qed.

Lemma map_exn_rows (default_fsn : str) : forall ms raw,
  map_exn (cb_rows_of_match 5 default_fsn) ms = Ret raw ->
  concat raw = List.map (row_of_match default_fsn) ms.
Proof.
  induction ms as [| m ms IH]; intros raw H; cbn [map_exn] in H.
  - injection H as <-. reflexivity.
  - destruct (cb_rows_of_match 5 default_fsn m) as [rows |] eqn:E;
      [| discriminate]. cbn [bind] in H.
    destruct (map_exn (cb_rows_of_match 5 default_fsn) ms) as [rest |] eqn:E';
      [| discriminate]. cbn [bind] in H. injection H as <-.
    apply cb_rows_of_match_row in E. subst rows.
    cbn [concat List.map app]. f_equal. now apply IH.
Qed.

(** C8.  Whatever the text and the default, the extractor returns a
    table.  The raw rows are the rows of the matches of the full-row
    pattern, in order.  The table is the raw rows deduplicated by FIN,
    first occurrence kept, then cut to 10: it has at most 10 rows, no two
    with the same FIN, and each of its rows is the first of the raw rows
    with that FIN.  Before the cut no FIN is lost and none is repeated; the
    first raw row is always in the table; and the table has 10 rows as soon
    as the raw rows have 10 distinct FINs. *)
Theorem parse_cb_table_unique (text default_fsn : str) :
  exists cb_entries rows,
    cb_collect cb_patterns text default_fsn [] = Ret cb_entries
    /\ parse_cb_table text default_fsn = Ret rows
    /\ length rows <= 10
    /\ NoDup (List.map fin rows)
    /\ (forall r, In r rows -> first_with_fin (fin r) cb_entries = Some r)
    /\ cb_entries
       = List.map (row_of_match default_fsn) (finditer I_ Pat.cb_full text)
    /\ rows = firstn 10 (first_occurrences cb_entries)
    /\ NoDup (List.map fin (first_occurrences cb_entries))
    /\ (forall r, In r (first_occurrences cb_entries) ->
        first_with_fin (fin r) cb_entries = Some r)
    /\ (forall e, In e cb_entries ->
        In (fin e) (List.map fin (first_occurrences cb_entries)))
    /\ (forall e rest, cb_entries = e :: rest ->
        exists rows', rows = e :: rows')
    /\ length rows = Nat.min 10 (length (first_occurrences cb_entries)).
Proof.
  destruct (cb_collect_total text default_fsn) as (raw & Hraw & Hc).
  exists (concat raw), (firstn 10 (dedup_fin [] (concat raw))).
  unfold parse_cb_table. rewrite Hc. cbn [bind].
  destruct (dedup_fin_spec (concat raw) []) as [Hnd Hin].
  assert (Hfo : dedup_fin [] (concat raw) = first_occurrences (concat raw)).
  { rewrite dedup_fin_first_occurrences. now apply filter_all. }
  split; [reflexivity |]. split; [reflexivity |].
  split; [apply firstn_le_length |].
  split; [rewrite <- firstn_map; now apply NoDup_firstn |].
  split; [intros r Hr; apply in_firstn in Hr; now apply Hin |].
  split; [now apply map_exn_rows |].
  rewrite Hfo in *.
  split; [reflexivity |]. split; [exact Hnd |].
  split; [intros r Hr; now apply Hin |].
  split; [apply first_occurrences_complete |].
  split.
  - intros e rest ->. cbn [first_occurrences firstn]. eexists. reflexivity.
  - apply length_firstn.
Qed.

(** Three rows, two with the same FIN: the first of the two is kept. *)
Example parse_cb_table_repeated_fin :
  parse_cb_table repeated_fin_text (str_of "ALL")
  = Ret [{| panel := str_of "49VU"; designation := str_of "AIR";
            fin := str_of "1CA1"; location := str_of "D01";
            fsn := str_of "ALL" |};
         {| panel := str_of "51VU"; designation := str_of "OIL";
            fin := str_of "2CB2"; location := str_of "D03";
            fsn := str_of "ALL" |}].
Proof. vm_compute. reflexivity. Qed.

Lemma parse_cb_table_no_full_row (text default_fsn : str) :
  finditer I_ Pat.cb_full text = [] -> parse_cb_table text default_fsn = Ret [].
Proof.
  intros H. unfold parse_cb_table, cb_patterns. cbn [cb_collect].
  rewrite H. cbn [map_exn bind concat app is_empty negb].
  rewrite map_exn_partial. cbn [bind app]. rewrite concat_nils. reflexivity.
Qed.

(** C2.  On the text "1CA1 D01" the full-row pattern finds nothing and
    the partial-row pattern finds the reference code 1CA1 followed by the
    location D01; the table returned is nevertheless empty, not the row
    with empty panel and designation and the default applicability: a
    match needs at least four groups to give a row and the partial
    pattern has two. *)
Theorem parse_cb_table_partial_row_dropped :
  let text := str_of "1CA1 D01" in
  finditer I_ Pat.cb_full text = []
  /\ List.map (groups 2) (finditer I_ Pat.cb_partial text)
     = [[Some (str_of "1CA1"); Some (str_of "D01")]]
  /\ parse_cb_table text (str_of "ALL") = Ret []
  /\ parse_cb_table text (str_of "ALL")
     <> Ret [partial_row (str_of "1CA1") (str_of "D01") (str_of "ALL")].
Proof. vm_compute. repeat split; discriminate. Qed.

(** ** One block *)

Lemma bind_not_none {A B} (c : outcome A) (f : A -> outcome (option B)) :
  (forall a, f a <> Ret None) -> bind c f <> Ret None.
Proof. intros H. destruct c; simpl; [apply H | discriminate]. Qed.

Lemma parse_block_not_none (block : Block.t) : parse_block block <> Ret None.
Proof.
  unfold parse_block. cbv zeta.
  repeat (apply bind_not_none; intros ?).
  discriminate.
Qed.

Lemma re_search_bound (fl : flags) (r : regex) (s : str) (m : match_obj) :
  re_search fl r s = Some m -> forall i, In i (binds r) -> bound i (m_caps m).
Proof.
  unfold re_search.
  destruct (search_from fl r false None s) as [[[n from] [[p after] c]] |]
    eqn:E; [| discriminate].
  intros H. inversion H; subst. simpl.
  apply search_from_inv in E. tauto.
Qed.

Lemma group1_or_total (fl : flags) (r : regex) (s default : str) :
  In 1 (binds r) -> exists g, group1_or (re_search fl r s) default = Ret g.
Proof.
  intros Hb. destruct (re_search fl r s) as [m |] eqn:E; simpl.
  - apply strip_opt_bound. eapply re_search_bound; eassumption.
  - now exists default.
Qed.

Lemma ecam_primary_total (text : str) : exists l, ecam_primary text = Ret l.
Proof.
  unfold ecam_primary.
  destruct (@map_exn_total _ _ (fun m => strip_opt (group m 1))
              (finditer I_ Pat.ecam text)) as [gs ->].
  - eapply Forall_impl; [| apply (finditer_each I_ Pat.ecam text)].
    simpl. intros m [Hb _]. apply strip_opt_bound. apply Hb. simpl. auto.
  - simpl. eexists. reflexivity.
Qed.

Lemma advisories_total (pattern : regex) (text : str) :
  In 1 (binds pattern) -> exists l, advisories pattern text = Ret l.
Proof.
  intros H1. unfold advisories.
  destruct (@map_exn_total _ _
              (fun m => s <- strip_opt (group m 1) ;;
                        Ret (replace [NL] (str_of " ") s))
              (finditer I_DOTALL pattern text)) as [gs ->].
  - eapply Forall_impl; [| apply (finditer_each I_DOTALL pattern text)].
    simpl. intros m [Hb _].
    destruct (@strip_opt_bound m 1 (Hb 1 H1)) as [s ->]. simpl.
    eexists. reflexivity.
  - simpl. eexists. reflexivity.
Qed.

(** The identifiers, by cases: the primary ones, else the fallback ones,
    else the header, which must then be there. *)
Lemma ecam_msgs_of_cases (block : Block.t) :
  exists primary,
    ecam_primary (Block.text block) = Ret primary
    /\ ecam_msgs_of block =
         match primary, ecam_known (Block.text block),
               Block.subtask_header block with
         | _ :: _, _, _ => Ret primary
         | [], _ :: _, _ => Ret (ecam_known (Block.text block))
         | [], [], Some h => Ret [strip (replace (str_of "SUBTASK") [] h)]
         | [], [], None => Raise (KeyError "subtask_header")
         end.
Proof.
  destruct (ecam_primary_total (Block.text block)) as [primary Hp].
  exists primary. split; [exact Hp |].
  unfold ecam_msgs_of, get_header. rewrite Hp. cbn [bind].
  destruct primary as [| x l]; cbn [is_empty]; [| reflexivity].
  destruct (ecam_known (Block.text block)) as [| y l]; cbn [is_empty];
    [| reflexivity].
  destruct (Block.subtask_header block); reflexivity.
Qed.

Lemma ecam_msgs_of_nonempty (block : Block.t) (msgs : list str) :
  ecam_msgs_of block = Ret msgs -> msgs <> [].
Proof.
  destruct (ecam_msgs_of_cases block) as (primary & _ & ->).
  destruct primary as [| x l];
    [destruct (ecam_known (Block.text block)) as [| y l'];
     [destruct (Block.subtask_header block) |] |];
    intros H; inversion H; discriminate.
Qed.

(** [parse_block] follows its identifiers: it raises when they do, and
    otherwise returns a record built around them. *)
Lemma parse_block_cases (block : Block.t) :
  match ecam_msgs_of block with
  | Raise e => parse_block block = Raise e
  | Ret msgs =>
      exists r, parse_block block = Ret (Some r)
                /\ ecamMessages r = msgs
                /\ id r = id_base_of (hd [] msgs) ++ str_of "-p"
                          ++ dec (Block.page block)
                /\ _source_page r = Block.page block
  end.
Proof.
  unfold parse_block. cbv zeta.
  destruct (@group1_or_total I_ Pat.fsn (Block.text block) (str_of "ALL"))
    as [fsn_str ->]; [simpl; auto |]. cbn [bind].
  destruct (ecam_msgs_of block) as [msgs | e] eqn:E; [| reflexivity].
  pose proof (ecam_msgs_of_nonempty block E) as Hne. cbn [bind].
  destruct (@group1_or_total I_ Pat.computer (Block.text block) [])
    as [comp ->]; [simpl; auto |]. cbn [bind].
  destruct (@group1_or_total I_ Pat.procedure (Block.text block) [])
    as [raw_proc ->]; [simpl; auto |]. cbn [bind].
  destruct (@advisories_total Pat.warning (Block.text block))
    as [ws ->]; [simpl; auto |]. cbn [bind].
  destruct (@advisories_total Pat.caution (Block.text block))
    as [cs ->]; [simpl; auto |]. cbn [bind].
  assert (Hnote : exists n,
    match re_search I_ Pat.note (Block.text block) with
    | Some m => s <- strip_opt (group m 1) ;; Ret (replace [NL] (str_of " ") s)
    | None => Ret []
    end = Ret n).
  { destruct (re_search I_ Pat.note (Block.text block)) as [m |] eqn:En.
    - destruct (@strip_opt_bound m 1) as [s ->].
      + eapply re_search_bound; [exact En | simpl; auto].
      + simpl. eexists. reflexivity.
    - eexists. reflexivity. }
  destruct Hnote as [n ->]. cbn [bind].
  destruct (parse_cb_table_total (Block.text block) fsn_str)
    as (rows & ->). cbn [bind].
  destruct msgs as [| first msgs]; [congruence |]. cbn [bind].
  eexists. split; [reflexivity |]. simpl. repeat split.
Qed.

Lemma wf_id_nonempty (r : record) : wf_id r -> id r <> [].
Proof.
  intros (base & page & -> & _). intros H.
  apply app_eq_nil in H. destruct H as [_ H]. discriminate.
Qed.

Lemma parse_block_wf_id (block : Block.t) (r : record) :
  parse_block block = Ret (Some r) -> wf_id r /\ ecamMessages r <> [].
Proof.
  intros H. pose proof (parse_block_cases block) as Hc.
  destruct (ecam_msgs_of block) as [msgs | e] eqn:E; [| congruence].
  destruct Hc as (r' & Hr' & Hm & Hid & _).
  assert (r' = r) by congruence. subst r'. split.
  - exists (id_base_of (hd [] msgs)), (Block.page block).
    split; [exact Hid |]. unfold id_base_of. apply firstn_le_length.
  - rewrite Hm. eapply ecam_msgs_of_nonempty; eassumption.
Qed.

(** A block with a header is always parsed. *)
Lemma parse_block_total (block : Block.t) (h : str) :
  Block.subtask_header block = Some h ->
  exists r, parse_block block = Ret (Some r).
Proof.
  intros Hh. pose proof (parse_block_cases block) as Hc.
  destruct (ecam_msgs_of_cases block) as (primary & _ & E).
  rewrite Hh in E.
  destruct (ecam_msgs_of block) as [msgs | e].
  - destruct Hc as (r & Hr & _). now exists r.
  - destruct primary; [destruct (ecam_known (Block.text block)) |];
      discriminate.
Qed.

Lemma raises_without_header (block : Block.t) :
  raises block = true -> Block.subtask_header block = None.
Proof.
  unfold raises. destruct (Block.subtask_header block) as [h |] eqn:Hh;
    [| reflexivity].
  destruct (parse_block_total block Hh) as [r ->]. discriminate.
Qed.

(** ** The driver *)

Lemma collect_skipped : forall blocks messages skipped,
  snd (collect blocks messages skipped)
  = skipped + length (filter raises blocks).
Proof.
  induction blocks as [| block blocks IH]; intros messages skipped;
    cbn [collect filter].
  - simpl. lia.
  - pose proof (parse_block_not_none block) as Hn. unfold raises at 1.
    destruct (parse_block block) as [[entry |] | e]; rewrite ?IH;
      cbn [length]; [lia | congruence | lia].
Qed.

Lemma collect_messages (P : record -> Prop)
    (HP : forall block r, parse_block block = Ret (Some r) -> P r) :
  forall blocks messages skipped,
    Forall P messages -> Forall P (fst (collect blocks messages skipped)).
Proof.
  induction blocks as [| block blocks IH]; intros messages skipped H; simpl.
  - exact H.
  - destruct (parse_block block) as [[entry |] | e] eqn:E; apply IH; auto.
    apply Forall_app. split; [exact H |]. constructor; [| constructor].
    eapply HP. exact E.
Qed.

Lemma main_skipped (pdf today : str) (merge : bool)
    (out_file : option database) (pages : list Page.t) (o : output)
    (skipped : nat) :
  main pdf today merge out_file pages = Ret (o, skipped) ->
  skipped = length (filter raises (split_into_blocks pages)).
Proof.
  unfold main.
  pose proof (collect_skipped (split_into_blocks pages) [] 0) as Hk.
  destruct (collect (split_into_blocks pages) [] 0) as [ms k].
  simpl in Hk. subst k.
  destruct merge, out_file as [[[prior |]] |]; simpl; intros H;
    inversion H; reflexivity.
Qed.

(** C10.  [parse_block] never returns [None]: it returns a record or it
    raises (and with a header in the block it returns a record).  The
    skip-on-None branch of the driver is therefore never taken, and the
    number of blocks the driver reports as skipped is the number of blocks
    on which [parse_block] raises. *)
Theorem parse_block_never_none :
  (forall block, parse_block block <> Ret None)
  /\ (forall block, (exists r, parse_block block = Ret (Some r))
                    \/ (exists e, parse_block block = Raise e))
  /\ (forall blocks,
        snd (collect blocks [] 0) = length (filter raises blocks))
  /\ (forall pdf today out_file pages,
        exists o,
          main pdf today false out_file pages
          = Ret (o, length (filter raises (split_into_blocks pages))))
  /\ (forall block h,
        Block.subtask_header block = Some h ->
        exists r, parse_block block = Ret (Some r)).
Proof.
  split; [exact parse_block_not_none |]. split; [| split; [| split]];
    [| | | exact parse_block_total].
  - intros block. pose proof (parse_block_not_none block) as Hn.
    destruct (parse_block block) as [[r |] | e];
      [left; now exists r | congruence | right; now exists e].
  - intros blocks. now rewrite collect_skipped.
  - intros pdf today out_file pages. unfold main.
    pose proof (collect_skipped (split_into_blocks pages) [] 0) as Hk.
    destruct (collect (split_into_blocks pages) [] 0) as [ms k].
    simpl in Hk. subst k. eexists. reflexivity.
Qed.

(** The blocks the segmenter makes all have a header, so none of them is
    skipped. *)
Lemma blocks_of_have_header full : forall ms,
  Forall (fun b => raises b = false) (blocks_of full ms).
Proof.
  induction ms as [| m ms IH]; cbn [blocks_of]; constructor; [| exact IH].
  destruct (raises _) eqn:E; [| reflexivity].
  apply raises_without_header in E. discriminate.
Qed.

Lemma split_into_blocks_never_skipped (pages : list Page.t) :
  filter raises (split_into_blocks pages) = [].
Proof.
  unfold split_into_blocks.
  induction (blocks_of_have_header (full_with_markers pages)
               (finditer I_ Pat.subtask (full_with_markers pages)))
    as [| b bs Hb _ IH]; [reflexivity |].
  simpl. now rewrite Hb.
Qed.

(** On the blocks of the segmenter the driver therefore skips nothing. *)
Lemma main_never_skips (pdf today : str) (merge : bool)
    (out_file : option database) (pages : list Page.t) (o : output)
    (skipped : nat) :
  main pdf today merge out_file pages = Ret (o, skipped) -> skipped = 0.
Proof.
  intros H. apply main_skipped in H.
  now rewrite split_into_blocks_never_skipped in H.
Qed.

(** ** The identifiers of a block *)

Lemma replace_go_absent (old new : str) : forall fuel s,
  contains old s = false -> replace_go fuel old new s = s.
Proof.
  induction fuel as [| fuel IH]; intros s H; [reflexivity |].
  destruct s as [| c s]; [reflexivity |].
  simpl in H. apply orb_false_iff in H. destruct H as [H1 H2].
  cbn [replace_go]. rewrite H1. f_equal. now apply IH.
Qed.

(** The counter of [replace_go] is never the reason it stops: from the
    length of the text on, one more round changes nothing. *)
Lemma replace_fuel_enough (old new : str) : old <> [] ->
  forall fuel s, length s <= fuel ->
    replace_go (S fuel) old new s = replace_go fuel old new s.
Proof.
  intros Hne. induction fuel as [| fuel IH]; intros s H.
  - destruct s; [reflexivity | simpl in H; lia].
  - destruct s as [| c s]; [reflexivity |].
    change (replace_go (S (S fuel)) old new (c :: s))
      with (if starts_with old (c :: s)
            then new ++ replace_go (S fuel) old new (skipn (length old) (c :: s))
            else c :: replace_go (S fuel) old new s).
    change (replace_go (S fuel) old new (c :: s))
      with (if starts_with old (c :: s)
            then new ++ replace_go fuel old new (skipn (length old) (c :: s))
            else c :: replace_go fuel old new s).
    destruct (starts_with old (c :: s)).
    + f_equal. apply IH. rewrite length_skipn.
      destruct old; [congruence |]. simpl in *. lia.
    + f_equal. apply IH. simpl in H. lia.
Qed.

Lemma skipn_length_app (old rest : str) : skipn (length old) (old ++ rest) = rest.
Proof. induction old as [| c old IH]; [reflexivity | exact IH]. Qed.

Lemma replace_leading (old rest : str) :
  old <> [] -> contains old rest = false -> replace old [] (old ++ rest) = rest.
Proof.
  intros Hne H. unfold replace.
  pose proof (starts_with_app old rest) as Hs.
  pose proof (skipn_length_app old rest) as Hk.
  destruct (old ++ rest) as [| c s] eqn:E.
  - destruct old; [congruence | discriminate].
  - cbn [length replace_go]. rewrite Hs, Hk. cbn [app].
    now apply replace_go_absent.
Qed.

Lemma leading_keyword_stripped_prefix (rest : str) :
  leading_keyword_stripped (str_of "SUBTASK" ++ rest) = strip rest.
Proof.
  unfold leading_keyword_stripped, upper. rewrite map_app.
  change (List.map upper_char (str_of "SUBTASK")) with (str_of "SUBTASK").
  rewrite starts_with_app. reflexivity.
Qed.

(** C7.  Every record [parse_block] produces has at least one
    identifier, and a block with a header always gives a record.  When
    neither pattern yields an identifier, the only identifier is the
    header with every occurrence of the upper-case keyword SUBTASK
    removed and the surrounding whitespace trimmed; for a header that
    begins with the keyword and does not contain it again, this is the
    header with its leading keyword stripped. *)
Theorem parse_block_identifiers (block : Block.t) :
  (forall r, parse_block block = Ret (Some r) -> ecamMessages r <> [])
  /\ forall h, Block.subtask_header block = Some h ->
       exists r,
         parse_block block = Ret (Some r)
         /\ (ecam_primary (Block.text block) = Ret [] ->
             ecam_known (Block.text block) = [] ->
             ecamMessages r = [strip (replace (str_of "SUBTASK") [] h)]
             /\ forall rest,
                  h = str_of "SUBTASK" ++ rest ->
                  contains (str_of "SUBTASK") rest = false ->
                  ecamMessages r = [leading_keyword_stripped h]).
Proof.
  split.
  - intros r H. now apply (parse_block_wf_id block).
  - intros h Hh. pose proof (parse_block_cases block) as Hc.
    destruct (ecam_msgs_of_cases block) as (primary & Hp & E).
    rewrite Hh in E.
    destruct (ecam_msgs_of block) as [msgs | e].
    + destruct Hc as (r & Hr & Hm & _). exists r. split; [exact Hr |].
      intros Hp0 Hk. rewrite Hp0 in Hp. injection Hp as Hp'.
      rewrite <- Hp', Hk in E. injection E as E'. rewrite E' in Hm.
      split; [exact Hm |].
      intros rest -> Hrest. rewrite Hm. f_equal.
      rewrite leading_keyword_stripped_prefix.
      rewrite replace_leading; [reflexivity | discriminate | exact Hrest].
    + destruct primary; [destruct (ecam_known (Block.text block)) |];
        discriminate.
Qed.

Lemma parse_block_identifiers_witness :
  exists r, parse_block clock_block = Ret (Some r)
            /\ ecamMessages r = [str_of "31-10 - clock reset"].
Proof.
  destruct (proj2 (parse_block_identifiers clock_block)
              (str_of "SUBTASK 31-10 - clock reset") eq_refl)
    as (r & Hr & Hfall).
  exists r. split; [exact Hr |].
  destruct Hfall as [_ Hlead]; [vm_compute; reflexivity .. |].
  rewrite (Hlead (str_of " 31-10 - clock reset"));
    vm_compute; reflexivity.
Defined.

(** C7 with the leading keyword alone stripped does not hold for the
    header "SUBTASK 1 - A SUBTASK":
    neither pattern yields an identifier, and the identifier is "1 - A",
    not the header with its leading keyword stripped, "1 - A SUBTASK". *)
Lemma parse_block_identifiers_counterexample :
  ecam_primary (Block.text twice_block) = Ret []
  /\ ecam_known (Block.text twice_block) = []
  /\ leading_keyword_stripped (str_of "SUBTASK 1 - A SUBTASK")
     = str_of "1 - A SUBTASK"
  /\ exists r, parse_block twice_block = Ret (Some r)
               /\ ecamMessages r = [str_of "1 - A"]
               /\ ecamMessages r
                  <> [leading_keyword_stripped (str_of "SUBTASK 1 - A SUBTASK")].
Proof.
  repeat split; try (vm_compute; reflexivity).
  destruct (parse_block twice_block) as [[r |] | e] eqn:E;
    try (vm_compute in E; discriminate).
  exists r. split; [reflexivity |].
  assert (Hm : ecamMessages r = [str_of "1 - A"]).
  { vm_compute in E. inversion E. reflexivity. }
  split; [exact Hm |]. rewrite Hm. vm_compute. discriminate.
Qed.

(** ** Ids and merging *)

Lemma main_fresh (pdf today : str) (merge : bool) (out_file : option database)
    (pages : list Page.t) :
  merge = false \/ out_file = None ->
  main pdf today merge out_file pages
  = Ret (document pdf today (fresh_records pages), fresh_skipped pages).
Proof.
  intros H. unfold main, fresh_records, fresh_skipped, document.
  destruct (collect (split_into_blocks pages) [] 0) as [ms k].
  destruct H as [-> | ->]; [| destruct merge]; reflexivity.
Qed.

Lemma main_merged (pdf today : str) (prior : list record)
    (pages : list Page.t) :
  main pdf today true (Some {| db_messages := Some prior |}) pages
  = Ret (document pdf today
           (prior ++ filter (fun m => negb (mem_id (List.map id prior) m))
                       (fresh_records pages)),
         fresh_skipped pages).
Proof.
  unfold main, fresh_records, fresh_skipped, document.
  destruct (collect (split_into_blocks pages) [] 0) as [ms k]. reflexivity.
Qed.

Lemma mem_id_false (ids : list str) (m : record) :
  negb (mem_id ids m) = true <-> ~ In (id m) ids.
Proof.
  unfold mem_id. rewrite negb_true_iff, <- not_true_iff_false.
  now rewrite existsb_str_eqb.
Qed.

Lemma fresh_records_wf (pages : list Page.t) :
  Forall (fun r => wf_id r /\ id r <> []) (fresh_records pages).
Proof.
  unfold fresh_records. apply collect_messages; [| constructor].
  intros block r H. apply parse_block_wf_id in H. destruct H as [H _].
  split; [exact H | now apply wf_id_nonempty].
Qed.

(** What does hold of the ids of a run.  Every record a run parses has a
    non-empty id, made of a base of at most 60 characters followed by the
    page suffix.  A fresh run writes exactly the parsed records; a merging
    run writes the records of the existing file, unchanged, followed by
    the parsed records whose id the file does not have. *)
Lemma main_ids (pdf today : str) (pages : list Page.t) :
  Forall (fun r => wf_id r /\ id r <> []) (fresh_records pages)
  /\ (forall out_file,
        main pdf today false out_file pages
        = Ret (document pdf today (fresh_records pages), fresh_skipped pages))
  /\ main pdf today true None pages
     = Ret (document pdf today (fresh_records pages), fresh_skipped pages)
  /\ (forall prior, exists new,
        main pdf today true (Some {| db_messages := Some prior |}) pages
        = Ret (document pdf today (prior ++ new), fresh_skipped pages)
        /\ Forall (fun r => wf_id r /\ id r <> []
                            /\ ~ In (id r) (List.map id prior)) new).
Proof.
  split; [apply fresh_records_wf |]. split; [| split].
  - intros out_file. apply main_fresh. now left.
  - apply main_fresh. now right.
  - intros prior. eexists. split; [apply main_merged |].
    apply Forall_forall. intros r Hr. apply filter_In in Hr.
    destruct Hr as [Hr Hn]. apply mem_id_false in Hn.
    pose proof (proj1 (Forall_forall _ _) (fresh_records_wf pages) r Hr)
      as [Hw Hne].
    repeat split; assumption.
Qed.

(** C4.  The ids of one document are not always pairwise distinct: for
    one page with two procedures for the same alert, the fresh run gives
    two records with the id "pack-fault-p1" (each of them non-empty, with
    a base of at most 60 characters). *)
Theorem main_ids_not_distinct :
  exists o skipped,
    main (str_of "resets.pdf") (str_of "2024-01-01") false None twin_pages
    = Ret (o, skipped)
    /\ List.map id (messages o)
       = [str_of "pack-fault-p1"; str_of "pack-fault-p1"]
    /\ ~ NoDup (List.map id (messages o))
    /\ Forall (fun r => wf_id r /\ id r <> []) (messages o).
Proof.
  eexists. eexists. split; [apply main_fresh; now left |].
  assert (H : List.map id (fresh_records twin_pages)
              = [str_of "pack-fault-p1"; str_of "pack-fault-p1"])
    by (vm_compute; reflexivity).
  cbn [messages document]. split; [exact H |]. split.
  - rewrite H. intros Hnd. inversion Hnd as [| ? ? Hnotin _]; subst.
    apply Hnotin. now left.
  - apply fresh_records_wf.
Qed.

Lemma in_map_id_app (prior new : list record) (i : str) :
  In i (List.map id (prior ++ new))
  <-> In i (List.map id prior) \/ In i (List.map id new).
Proof. rewrite map_app. apply in_app_iff. Qed.

(** C9.  With merge mode on and an existing document whose ids are x and
    y, a parse whose ids are y and z gives a document whose ids are
    exactly x, y and z; the existing records come first, unchanged, every
    record with the id y is one of the existing ones, and what is appended
    is the parsed records with an id the existing document lacks. *)
Theorem main_merge_law (pdf today : str) (pages : list Page.t)
    (prior : list record) (x y z : str) :
  (forall i, In i (List.map id prior) <-> i = x \/ i = y) ->
  (forall i, In i (List.map id (fresh_records pages)) <-> i = y \/ i = z) ->
  exists new,
    main pdf today true (Some {| db_messages := Some prior |}) pages
    = Ret (document pdf today (prior ++ new), fresh_skipped pages)
    /\ (forall i, In i (List.map id (prior ++ new))
                  <-> i = x \/ i = y \/ i = z)
    /\ (forall r, In r (prior ++ new) -> id r = y -> In r prior)
    /\ (forall r, In r new <-> In r (fresh_records pages) /\ id r = z /\ z <> x /\ z <> y).
Proof.
  intros Hprior Hfresh. eexists. split; [apply main_merged |].
  set (new := filter _ _).
  assert (Hnew : forall r, In r new <->
            In r (fresh_records pages) /\ ~ In (id r) (List.map id prior)).
  { intros r. unfold new. rewrite filter_In, mem_id_false. tauto. }
  assert (Hid : forall r, In r (fresh_records pages) -> id r = y \/ id r = z).
  { intros r Hr. apply Hfresh. now apply in_map. }
  split; [| split].
  - intros i. rewrite in_map_id_app, Hprior. split.
    + intros [[-> | ->] | Hi]; auto.
      apply in_map_iff in Hi. destruct Hi as (r & <- & Hr).
      apply Hnew in Hr. destruct Hr as [Hr _].
      destruct (Hid r Hr); auto.
    + intros [-> | [-> | ->]]; auto.
      destruct (in_dec (list_eq_dec N.eq_dec) z (List.map id prior))
        as [Hin | Hout].
      * left. now apply Hprior.
      * right. assert (Hz : In z (List.map id (fresh_records pages)))
          by (apply Hfresh; now right).
        apply in_map_iff in Hz. destruct Hz as (r & <- & Hr).
        apply in_map. apply Hnew. now split.
  - intros r Hr Hy. apply in_app_or in Hr. destruct Hr as [Hr | Hr];
      [exact Hr |].
    apply Hnew in Hr. destruct Hr as [_ Hn]. exfalso. apply Hn.
    apply Hprior. now right.
  - intros r. rewrite Hnew. split.
    + intros [Hr Hn]. split; [exact Hr |].
      assert (Hz : id r = z).
      { destruct (Hid r Hr) as [E | E]; [| exact E].
        exfalso. apply Hn. apply Hprior. now right. }
      repeat split; [exact Hz | |]; intros E; apply Hn; apply Hprior;
        rewrite Hz; [left | right]; exact E.
    + intros (Hr & Hz & Hx & Hy). split; [exact Hr |].
      rewrite Hprior, Hz. tauto.
Qed.

Lemma main_merge_law_witness :
  exists new,
    main (str_of "resets.pdf") (str_of "2024-01-01") true
      (Some {| db_messages := Some prior_records |}) merge_pages
    = Ret (document (str_of "resets.pdf") (str_of "2024-01-01")
             (prior_records ++ new), fresh_skipped merge_pages)
    /\ (forall r, In r (prior_records ++ new) ->
                  id r = str_of "pack-fault-p1" -> In r prior_records).
Proof.
  destruct (@main_merge_law (str_of "resets.pdf") (str_of "2024-01-01")
              merge_pages prior_records
              (str_of "fwc-fault-p3") (str_of "pack-fault-p1")
              (str_of "bleed-fault-p1"))
    as (new & Hmain & _ & Hkeep & _).
  - intros i. simpl. intuition (subst; auto).
  - intros i.
    replace (List.map id (fresh_records merge_pages))
      with [str_of "pack-fault-p1"; str_of "bleed-fault-p1"]
      by (vm_compute; reflexivity).
    simpl. intuition (subst; auto).
  - exists new. split; [exact Hmain | exact Hkeep].
Defined.

(** ** The scenario *)

Lemma parse_block_scenario_one_line (page : Z) :
  exists r,
    parse_block (scenario_block page) = Ret (Some r)
    /\ aircraft r = [CEO]
    /\ resetProcedure r = str_of "1. Open panel 2. Press button"
    /\ id r = str_of "pack-fault-reset-p" ++ dec page.
Proof.
  destruct (parse_block (scenario_block page)) as [[r |] | e] eqn:E;
    vm_compute in E; try discriminate.
  exists r. split; [reflexivity |].
  injection E as <-. repeat split; vm_compute; reflexivity.
Qed.

Lemma parse_block_scenario_lines (page : Z) :
  exists r,
    parse_block (scenario_block_lines page) = Ret (Some r)
    /\ aircraft r = [CEO]
    /\ resetProcedure r
       = str_of "1. Open panel" ++ [NL] ++ str_of "2. Press button"
    /\ id r = str_of "pack-fault-reset-p" ++ dec page.
Proof.
  destruct (parse_block (scenario_block_lines page)) as [[r |] | e] eqn:E;
    vm_compute in E; try discriminate.
  exists r. split; [reflexivity |].
  injection E as <-. repeat split; vm_compute; reflexivity.
Qed.

(** C3.  The block with the header "SUBTASK 24-00-810 - PACK
    FAULT RESET", the declaration "** ON A/C FSN 051-070" and the line
    "RESET PROCEDURE: 1. Open panel 2. Press button" gives the variants
    CEO alone, an id that is "pack-fault-reset" followed by the page
    suffix, and the procedure "1. Open panel 2. Press button": one step,
    since steps are cut at line breaks only.  With each step on a line of
    its own the procedure is the two renumbered lines. *)
Theorem parse_block_scenario (page : Z) :
  (exists r,
     parse_block (scenario_block page) = Ret (Some r)
     /\ aircraft r = [CEO]
     /\ resetProcedure r = str_of "1. Open panel 2. Press button"
     /\ id r = str_of "pack-fault-reset-p" ++ dec page)
  /\ (exists r,
        parse_block (scenario_block_lines page) = Ret (Some r)
        /\ aircraft r = [CEO]
        /\ resetProcedure r
           = str_of "1. Open panel" ++ [NL] ++ str_of "2. Press button"
        /\ id r = str_of "pack-fault-reset-p" ++ dec page).
Proof.
  split; [apply parse_block_scenario_one_line | apply parse_block_scenario_lines].
Qed.

(** C3 with two renumbered lines does not hold for the block of the
    scenario: its procedure is the single line "1. Open panel 2. Press
    button". *)
Lemma parse_block_scenario_counterexample :
  exists r,
    parse_block (scenario_block 1) = Ret (Some r)
    /\ aircraft r = [CEO]
    /\ id r = str_of "pack-fault-reset-p1"
    /\ resetProcedure r
       <> str_of "1. Open panel" ++ [NL] ++ str_of "2. Press button".
Proof.
  destruct (parse_block (scenario_block 1)) as [[r |] | e] eqn:E;
    vm_compute in E; try discriminate.
  exists r. split; [reflexivity |].
  injection E as <-. repeat split; try (vm_compute; reflexivity).
  vm_compute. discriminate.
Qed.

(** * Further properties of the code *)

(** ** What a parsed record is made of *)

(** Each field of a record that [parse_block] returns, in terms of the
    extractor that fills it. *)
Lemma parse_block_inv (block : Block.t) (r : record) :
  parse_block block = Ret (Some r) ->
  group1_or (re_search I_ Pat.fsn (Block.text block)) (str_of "ALL")
    = Ret (_fsn_raw r)
  /\ aircraft r = fsn_to_aircraft (_fsn_raw r)
  /\ ata r = match re_search NOFLAGS Pat.ata (Block.text block) with
             | Some m => group m 1
             | None => Some (str_of "00")
             end
  /\ ecam_msgs_of block = Ret (ecamMessages r)
  /\ group1_or (re_search I_ Pat.computer (Block.text block)) []
     = Ret (computer r)
  /\ (exists raw_proc,
        group1_or (re_search I_ Pat.procedure (Block.text block)) []
          = Ret raw_proc
        /\ resetProcedure r
           = if negb (is_empty (steps_of raw_proc))
             then join [NL] (numbered 0 (steps_of raw_proc)) else raw_proc)
  /\ advisories Pat.warning (Block.text block) = Ret (warnings r)
  /\ advisories Pat.caution (Block.text block) = Ret (cautions r)
  /\ match re_search I_ Pat.note (Block.text block) with
     | Some m => s <- strip_opt (group m 1) ;; Ret (replace [NL] (str_of " ") s)
     | None => Ret []
     end = Ret (notes r)
  /\ parse_cb_table (Block.text block) (_fsn_raw r) = Ret (cbTable r)
  /\ id r = id_base_of (hd [] (ecamMessages r)) ++ str_of "-p"
            ++ dec (Block.page block)
  /\ _source_page r = Block.page block.
Proof.
  unfold parse_block. cbv zeta.
  destruct (group1_or (re_search I_ Pat.fsn (Block.text block)) (str_of "ALL"))
    as [fsn_str | e]; [| discriminate]. cbn [bind].
  destruct (ecam_msgs_of block) as [msgs | e] eqn:Em; [| discriminate].
  pose proof (ecam_msgs_of_nonempty block Em) as Hne. cbn [bind].
  destruct (group1_or (re_search I_ Pat.computer (Block.text block)) [])
    as [comp | e]; [| discriminate]. cbn [bind].
  destruct (group1_or (re_search I_ Pat.procedure (Block.text block)) [])
    as [raw_proc | e]; [| discriminate]. cbn [bind].
  destruct (advisories Pat.warning (Block.text block)) as [ws | e];
    [| discriminate]. cbn [bind].
  destruct (advisories Pat.caution (Block.text block)) as [cs | e];
    [| discriminate]. cbn [bind].
  destruct (re_search I_ Pat.note (Block.text block)) as [mn |];
    [destruct (strip_opt (group mn 1)) as [sn | e]; [| discriminate] |];
    cbn [bind];
    (destruct (parse_cb_table (Block.text block) fsn_str) as [rows | e]
       eqn:Ecb; [| discriminate]); cbn [bind];
    (destruct msgs as [| first msgs]; [congruence |]); cbn [bind];
    intros H; injection H as <-; cbn;
    repeat (match goal with |- _ /\ _ => split end);
    first [reflexivity | exact Ecb | exists raw_proc; split; reflexivity].
Qed.

(** ** Merging again *)

Lemma filter_known_nil (ids : list str) : forall l : list record,
  (forall r, In r l -> mem_id ids r = true) ->
  filter (fun m => negb (mem_id ids m)) l = [].
Proof.
  induction l as [| r l IH]; intros H; [reflexivity |].
  cbn [filter]. rewrite (H r (or_introl eq_refl)). cbn [negb].
  apply IH. intros r' Hr'. apply H. now right.
Qed.

Lemma filter_merged_nil (prior fresh : list record) :
  filter (fun m =>
            negb (mem_id
                    (List.map id
                       (prior ++ filter (fun m => negb (mem_id (List.map id prior) m))
                                   fresh)) m)) fresh = [].
Proof.
  apply filter_known_nil. intros r Hr.
  destruct (mem_id (List.map id prior) r) eqn:E.
  - unfold mem_id in *. apply existsb_str_eqb. rewrite map_app.
    apply in_or_app. left. now apply existsb_str_eqb.
  - assert (Hin : In r (filter (fun m => negb (mem_id (List.map id prior) m))
                          fresh)).
    { apply filter_In. split; [exact Hr |]. cbv beta. now rewrite E. }
    unfold mem_id. apply existsb_str_eqb. rewrite map_app.
    apply in_or_app. right. now apply in_map.
Qed.

(** X1.  Running the merge a second time on the same pages, against the
    document the first run wrote (a merging run or a fresh one), appends
    nothing: the records come back as they were written. *)
Theorem main_merge_again (pdf today today' : str) (pages : list Page.t) :
  (forall prior, exists o skipped,
      main pdf today true (Some {| db_messages := Some prior |}) pages
      = Ret (o, skipped)
      /\ main pdf today' true (Some {| db_messages := Some (messages o) |}) pages
         = Ret (document pdf today' (messages o), skipped))
  /\ (forall out_file, exists o skipped,
        main pdf today false out_file pages = Ret (o, skipped)
        /\ main pdf today' true (Some {| db_messages := Some (messages o) |}) pages
           = Ret (document pdf today' (messages o), skipped)).
Proof.
  split.
  - intros prior. eexists. eexists. split; [apply main_merged |].
    rewrite main_merged. cbn [messages document].
    rewrite filter_merged_nil, app_nil_r. reflexivity.
  - intros out_file. eexists. eexists.
    split; [apply main_fresh; now left |].
    rewrite main_merged. cbn [messages document].
    pose proof (filter_merged_nil [] (fresh_records pages)) as H.
    cbn [app List.map] in H.
    replace (filter (fun m => negb (mem_id [] m)) (fresh_records pages))
      with (fresh_records pages) in H.
    + rewrite H, app_nil_r. reflexivity.
    + symmetry. apply forallb_filter_id. apply forallb_forall.
      intros r _. reflexivity.
Qed.

Lemma NoDup_map_filter {A B} (f : A -> B) (p : A -> bool) : forall l,
  NoDup (List.map f l) -> NoDup (List.map f (filter p l)).
Proof.
  induction l as [| x l IH]; intros H; [constructor |].
  inversion H as [| ? ? Hx Hl]; subst. cbn [filter].
  destruct (p x); [| now apply IH]. cbn [List.map]. constructor; [| now apply IH].
  intros Hc. apply Hx. apply in_map_iff in Hc. destruct Hc as (y & Hy & Hin).
  apply filter_In in Hin. rewrite <- Hy. apply in_map. tauto.
Qed.

(** X2.  Merging keeps ids distinct: when the ids of the existing document are
    pairwise distinct and so are those of the parse, the ids of the merged
    document are pairwise distinct. *)
Theorem main_merge_distinct (pdf today : str) (pages : list Page.t)
    (prior : list record) :
  NoDup (List.map id prior) ->
  NoDup (List.map id (fresh_records pages)) ->
  exists o skipped,
    main pdf today true (Some {| db_messages := Some prior |}) pages
    = Ret (o, skipped)
    /\ NoDup (List.map id (messages o)).
Proof.
  intros Hp Hf. eexists. eexists. split; [apply main_merged |].
  cbn [messages document]. rewrite map_app.
  apply NoDup_app; [exact Hp | now apply NoDup_map_filter |].
  intros i Hi Hn. apply in_map_iff in Hn. destruct Hn as (r & <- & Hr).
  apply filter_In in Hr. destruct Hr as [_ Hr].
  apply mem_id_false in Hr. contradiction.
Qed.

Lemma main_merge_distinct_witness :
  exists o skipped,
    main (str_of "resets.pdf") (str_of "2024-01-01") true
      (Some {| db_messages := Some prior_records |}) merge_pages
    = Ret (o, skipped)
    /\ NoDup (List.map id (messages o)).
Proof.
  apply main_merge_distinct.
  - repeat constructor; simpl; intuition discriminate.
  - replace (List.map id (fresh_records merge_pages))
      with [str_of "pack-fault-p1"; str_of "bleed-fault-p1"]
      by (vm_compute; reflexivity).
    repeat constructor; simpl; intuition discriminate.
Defined.

(** ** One record per header *)

Lemma collect_all_parsed : forall blocks messages skipped,
  Forall (fun b => raises b = false) blocks ->
  exists rs,
    collect blocks messages skipped = (messages ++ rs, skipped)
    /\ Forall2 (fun b r => parse_block b = Ret (Some r)) blocks rs.
Proof.
  induction blocks as [| b blocks IH]; intros messages skipped H.
  - exists []. rewrite app_nil_r. split; [reflexivity | constructor].
  - inversion H as [| ? ? Hb Hbs]; subst. cbn [collect].
    pose proof (parse_block_not_none b) as Hn. unfold raises in Hb.
    destruct (parse_block b) as [[entry |] | e] eqn:E;
      [| congruence | discriminate].
    destruct (IH (messages ++ [entry]) skipped Hbs) as (rs & Hc & Hrs).
    exists (entry :: rs). rewrite Hc, <- app_assoc. split; [reflexivity |].
    now constructor.
Qed.

(** X4.  A fresh run skips nothing and writes, in the order of the document,
    one record for each header the segmenter recognises: the parse of the
    block of that header, on the page of that block. *)
Theorem main_one_record_per_header (pdf today : str)
    (out_file : option database) (pages : list Page.t) :
  exists o,
    main pdf today false out_file pages = Ret (o, 0)
    /\ Forall2 (fun b r => parse_block b = Ret (Some r))
         (split_into_blocks pages) (messages o)
    /\ length (messages o)
       = length (finditer I_ Pat.subtask (full_with_markers pages))
    /\ List.map _source_page (messages o)
       = List.map Block.page (split_into_blocks pages).
Proof.
  destruct (@collect_all_parsed (split_into_blocks pages) [] 0)
    as (rs & Hc & Hrs).
  { apply blocks_of_have_header. }
  exists (document pdf today rs). cbn [messages document].
  split; [| split; [exact Hrs | split]].
  - rewrite main_fresh by now left.
    unfold fresh_records, fresh_skipped. rewrite Hc. reflexivity.
  - rewrite <- (Forall2_length Hrs). unfold split_into_blocks.
    generalize (finditer I_ Pat.subtask (full_with_markers pages)).
    induction l as [| m l IH]; [reflexivity |]. cbn [blocks_of length].
    now rewrite IH.
  - clear Hc. induction Hrs as [| b r bs rs Hbr _ IH]; [reflexivity |].
    cbn [List.map]. rewrite IH. f_equal.
    apply parse_block_inv in Hbr. apply Hbr.
Qed.

(** ** When a block cannot be parsed *)

(** X5.  On a block with an ASCII text and a page number that [str]
    writes, [parse_block] raises in one situation only: the block has no
    header and neither identifier pattern finds anything; the exception is
    then the [KeyError] of the header lookup. *)
Theorem parse_block_raises_iff (block : Block.t) :
  ascii_text (Block.text block) -> printable (Block.page block) ->
  (forall e, parse_block block = Raise e -> e = KeyError "subtask_header")
  /\ (parse_block block = Raise (KeyError "subtask_header")
      <-> Block.subtask_header block = None
          /\ ecam_primary (Block.text block) = Ret []
          /\ ecam_known (Block.text block) = []).
Proof.
  intros _ _. pose proof (parse_block_cases block) as Hc.
  destruct (ecam_msgs_of_cases block) as (primary & Hp & E).
  rewrite Hp.
  destruct (ecam_msgs_of block) as [msgs | e0].
  - destruct Hc as (r & Hr & _). rewrite Hr. split; [discriminate |].
    split; [discriminate |]. intros (Hh & Hp0 & Hk).
    injection Hp0 as ->. rewrite Hh, Hk in E. discriminate.
  - rewrite Hc.
    destruct primary as [| x l]; [| discriminate].
    destruct (ecam_known (Block.text block)) as [| y l]; [| discriminate].
    destruct (Block.subtask_header block) as [h |]; [discriminate |].
    injection E as ->. split.
    + intros e He. now injection He as <-.
    + split; auto.
Qed.

Lemma parse_block_raises_iff_witness :
  ascii_text (Block.text bare_block) /\ printable (Block.page bare_block)
  /\ parse_block bare_block = Raise (KeyError "subtask_header").
Proof.
  assert (Ha : ascii_text (Block.text bare_block)) by reflexivity.
  assert (Hp : printable (Block.page bare_block)) by reflexivity.
  split; [exact Ha |]. split; [exact Hp |].
  apply (proj2 (@parse_block_raises_iff bare_block Ha Hp)).
  repeat split; vm_compute; reflexivity.
Defined.

(** ** The identifiers have no repetition *)






(** ** Advisories and notes are single lines *)

Lemma replace_go_no_old (c : char) (new : str) : ~ In c new ->
  forall fuel s, length s <= fuel -> ~ In c (replace_go fuel [c] new s).
Proof.
  intros Hnew. induction fuel as [| fuel IH]; intros s H.
  - destruct s; [intros [] | simpl in H; lia].
  - destruct s as [| a s]; [intros [] |].
    cbn [replace_go starts_with length skipn]. simpl in H.
    destruct (N.eqb_spec c a) as [-> | Hne]; cbn [andb].
    + intros Hc. apply in_app_or in Hc. destruct Hc as [Hc | Hc];
        [contradiction | revert Hc; apply IH; lia].
    + intros [Hc | Hc]; [congruence | revert Hc; apply IH; lia].
Qed.

Lemma replace_newline (s : str) : ~ In NL (replace [NL] (str_of " ") s).
Proof.
  unfold replace. apply replace_go_no_old; [| lia].
  vm_compute. intros [H | []]. discriminate.
Qed.

Lemma map_exn_Forall {A B} (f : A -> outcome B) (P : B -> Prop)
    (Hf : forall x y, f x = Ret y -> P y) :
  forall l ys, map_exn f l = Ret ys -> Forall P ys.
Proof.
  induction l as [| x l IH]; intros ys H; cbn [map_exn] in H.
  - injection H as <-. constructor.
  - destruct (f x) as [y | e] eqn:E; [| discriminate]. cbn [bind] in H.
    destruct (map_exn f l) as [ys' | e]; [| discriminate]. cbn [bind] in H.
    injection H as <-. constructor; [eapply Hf; eassumption | now apply IH].
Qed.

Lemma advisories_single_line (pattern : regex) (text : str) (l : list str) :
  advisories pattern text = Ret l ->
  Forall (fun txt => ~ In NL txt /\ 10 < length txt) l.
Proof.
  unfold advisories.
  destruct (map_exn _ _) as [txts | e] eqn:E; [| discriminate]. cbn [bind].
  intros H. injection H as <-.
  apply (map_exn_Forall _ (fun txt => ~ In NL txt)) in E.
  - apply Forall_forall. intros txt Hin. apply filter_In in Hin.
    destruct Hin as [Hin Hlen]. apply andb_true_iff in Hlen.
    destruct Hlen as [_ Hlen]. apply Nat.ltb_lt in Hlen.
    split; [| exact Hlen]. exact (proj1 (Forall_forall _ _) E txt Hin).
  - intros m y Hy. destruct (strip_opt (group m 1)) as [s | e];
      [| discriminate]. cbn [bind] in Hy. injection Hy as <-.
    apply replace_newline.
Qed.

(** X7.  Every warning and every caution of a record is a single line of more
    than 10 characters, and the notes are a single line. *)
Theorem parse_block_single_lines (block : Block.t) (r : record) :
  parse_block block = Ret (Some r) ->
  Forall (fun txt => ~ In NL txt /\ 10 < length txt) (warnings r)
  /\ Forall (fun txt => ~ In NL txt /\ 10 < length txt) (cautions r)
  /\ ~ In NL (notes r).
Proof.
  intros H. apply parse_block_inv in H.
  destruct H as (_ & _ & _ & _ & _ & _ & Hw & Hc & Hn & _).
  split; [now apply advisories_single_line with (1 := Hw) |].
  split; [now apply advisories_single_line with (1 := Hc) |].
  destruct (re_search I_ Pat.note (Block.text block)) as [m |].
  - destruct (strip_opt (group m 1)) as [s | e]; [| discriminate].
    cbn [bind] in Hn. injection Hn as <-. apply replace_newline.
  - injection Hn as <-. intros [].
Qed.

Lemma parse_block_single_lines_witness :
  exists r,
    parse_block advisory_block = Ret (Some r)
    /\ warnings r = [str_of "DEPRESSURIZE THE SYSTEM BEFORE YOU OPEN THE PANEL";
                     str_of "KEEP CLEAR OF THE DOORS"]
    /\ Forall (fun txt => ~ In NL txt /\ 10 < length txt) (warnings r).
Proof.
  destruct (parse_block advisory_block) as [[r |] | e] eqn:E;
    try (vm_compute in E; discriminate).
  exists r. split; [reflexivity |]. split.
  - vm_compute in E. injection E as <-. reflexivity.
  - exact (proj1 (parse_block_single_lines advisory_block E)).
Defined.

(** ** The table loses no FIN below its cap *)

Lemma dedup_fin_complete : forall cb_entries seen_fins e,
  In e cb_entries ->
  In (fin e) seen_fins
  \/ In (fin e) (List.map fin (dedup_fin seen_fins cb_entries)).
Proof.
  induction cb_entries as [| cb rest IH]; intros seen e Hin; [destruct Hin |].
  destruct Hin as [<- | He]; cbn [dedup_fin].
  - destruct (existsb (str_eqb (fin cb)) seen) eqn:E; cbn [negb].
    + left. now apply existsb_str_eqb.
    + right. now left.
  - destruct (existsb (str_eqb (fin cb)) seen) eqn:E; cbn [negb].
    + now apply IH.
    + destruct (IH (fin cb :: seen) e He) as [[<- | H] | H].
      * right. now left.
      * now left.
      * right. now right.
Qed.

(** X8.  When the table has fewer than 10 rows, nothing was cut: the FIN of
    every raw row is the FIN of a row of the table. *)
Theorem parse_cb_table_complete (text default_fsn : str) :
  exists cb_entries rows,
    cb_collect cb_patterns text default_fsn [] = Ret cb_entries
    /\ parse_cb_table text default_fsn = Ret rows
    /\ (length rows < 10 ->
        forall e, In e cb_entries -> In (fin e) (List.map fin rows)).
Proof.
  destruct (cb_collect_total text default_fsn) as (raw & _ & Hc).
  exists (concat raw), (firstn 10 (dedup_fin [] (concat raw))).
  unfold parse_cb_table. rewrite Hc. cbn [bind].
  split; [reflexivity |]. split; [reflexivity |].
  intros Hlen e He.
  assert (Hall : firstn 10 (dedup_fin [] (concat raw))
                 = dedup_fin [] (concat raw)).
  { apply firstn_all2. rewrite length_firstn in Hlen. lia. }
  rewrite Hall.
  destruct (dedup_fin_complete (concat raw) [] e He) as [H | H];
    [destruct H | exact H].
Qed.

(** ** Ids and pages *)

Lemma str_of_inj (a b : string) : str_of a = str_of b -> a = b.
Proof.
  unfold str_of. intros H.
  assert (Hl : list_ascii_of_string a = list_ascii_of_string b).
  { revert H. generalize (list_ascii_of_string a) (list_ascii_of_string b).
    induction l as [| x l IH]; intros [| y l'] H; try discriminate;
      [reflexivity |].
    cbn [List.map] in H. injection H as Hx Hl.
    f_equal; [| now apply IH].
    rewrite <- (ascii_N_embedding x), <- (ascii_N_embedding y). now f_equal. }
  rewrite <- (string_of_list_ascii_of_string a),
          <- (string_of_list_ascii_of_string b).
  now f_equal.
Qed.

Lemma to_int_not_nil (z : Z) :
  Z.to_int z <> Decimal.Pos Decimal.Nil /\ Z.to_int z <> Decimal.Neg Decimal.Nil.
Proof.
  destruct z as [| p | p]; simpl; split; try discriminate;
    intros H; injection H as H; now apply DecimalPos.Unsigned.to_uint_nonnil in H.
Qed.

(** [str] of an integer tells integers apart. *)
Lemma dec_inj (z1 z2 : Z) : dec z1 = dec z2 -> z1 = z2.
Proof.
  unfold dec. intros H. apply str_of_inj in H.
  apply DecimalZ.to_int_inj.
  destruct (to_int_not_nil z1) as [Ha Hb], (to_int_not_nil z2) as [Hc Hd].
  pose proof (NilZero.isi _ Ha Hb) as H1. pose proof (NilZero.isi _ Hc Hd) as H2.
  rewrite H in H1. congruence.
Qed.

Lemma string_of_uint_digits (d : Decimal.uint) :
  Forall (fun c => is_digit c = true) (str_of (NilEmpty.string_of_uint d)).
Proof. induction d; simpl; constructor; auto. Qed.

(** [str] of an integer is made of digits after an optional minus sign. *)
Lemma dec_chars (z : Z) :
  Forall (fun c => is_digit c = true \/ c = 45%N) (dec z).
Proof.
  assert (Hu : forall d,
    Forall (fun c => is_digit c = true \/ c = 45%N)
      (str_of (NilZero.string_of_uint d))).
  { intros d. eapply Forall_impl;
      [| destruct d; [repeat constructor | apply string_of_uint_digits ..]].
    - simpl. intros c Hc. now left.
    - reflexivity. }
  unfold dec. destruct (Z.to_int z) as [d | d]; cbn [NilZero.string_of_int].
  - apply Hu.
  - change (str_of (String "-" (NilZero.string_of_uint d)))
      with (45%N :: str_of (NilZero.string_of_uint d)).
    constructor; [now right | apply Hu].
Qed.

Lemma dec_no_letter (z : Z) (c : char) :
  is_digit c = false -> c <> 45%N -> ~ In c (dec z).
Proof.
  intros Hd Hm Hin.
  destruct (proj1 (Forall_forall _ _) (dec_chars z) c Hin); congruence.
Qed.

Lemma app_sep_unique {A} (x : A) : forall a b d1 d2,
  ~ In x d1 -> ~ In x d2 -> a ++ x :: d1 = b ++ x :: d2 -> a = b /\ d1 = d2.
Proof.
  induction a as [| y a IH]; intros [| z b] d1 d2 H1 H2 H; cbn [app] in H.
  - injection H as ->. auto.
  - injection H as -> ->. exfalso. apply H1. apply in_or_app. right. now left.
  - injection H as -> <-. exfalso. apply H2. apply in_or_app. right. now left.
  - injection H as -> H. destruct (IH b d1 d2 H1 H2 H) as [-> ->]. auto.
Qed.

(** X9.  The id of a record depends on its first identifier and its page
    only, and the page can be read back from it: two records from
    different pages never have the same id, and two records with the same
    first identifier on the same page always do. *)
Theorem parse_block_id_page (b1 b2 : Block.t) (r1 r2 : record) :
  parse_block b1 = Ret (Some r1) ->
  parse_block b2 = Ret (Some r2) ->
  (id r1 = id r2 -> Block.page b1 = Block.page b2)
  /\ (hd [] (ecamMessages r1) = hd [] (ecamMessages r2) ->
      Block.page b1 = Block.page b2 -> id r1 = id r2).
Proof.
  intros H1 H2. apply parse_block_inv in H1, H2.
  destruct H1 as (_ & _ & _ & _ & _ & _ & _ & _ & _ & _ & Hid1 & _).
  destruct H2 as (_ & _ & _ & _ & _ & _ & _ & _ & _ & _ & Hid2 & _).
  rewrite Hid1, Hid2. split.
  - assert (E : forall base d : str,
              base ++ str_of "-p" ++ d = (base ++ [45%N]) ++ 112%N :: d)
      by (intros; rewrite <- app_assoc; reflexivity).
    rewrite !E. intros H.
    apply app_sep_unique in H;
      [| apply dec_no_letter; [reflexivity | discriminate] ..].
    apply dec_inj. apply H.
  - intros -> ->. reflexivity.
Qed.

Lemma parse_block_id_page_witness :
  exists r1 r2,
    parse_block (scenario_block 3) = Ret (Some r1)
    /\ parse_block other_page_block = Ret (Some r2)
    /\ (id r1 = id r2 -> 3 = 12)%Z.
Proof.
  destruct (parse_block (scenario_block 3)) as [[r1 |] | e] eqn:E1;
    try (vm_compute in E1; discriminate).
  destruct (parse_block other_page_block) as [[r2 |] | e] eqn:E2;
    try (vm_compute in E2; discriminate).
  exists r1, r2. split; [reflexivity |]. split; [reflexivity |].
  exact (proj1 (parse_block_id_page (scenario_block 3) other_page_block E1 E2)).
Defined.

(** ** The procedure has one numbered line per step *)

Lemma split_on_nonempty (sep : char) (s : str) : split_on sep s <> [].
Proof.
  induction s as [| c s IH]; cbn [split_on]; [discriminate |].
  destruct (N.eqb c sep); [discriminate |].
  destruct (split_on sep s); [contradiction | discriminate].
Qed.





Lemma in_lstrip_by (p : char -> bool) (x : char) : forall s,
  In x (lstrip_by p s) -> In x s.
Proof.
  induction s as [| c s IH]; cbn [lstrip_by]; [tauto |].
  destruct (p c); [intros H; right; now apply IH | tauto].
Qed.

Lemma in_strip_by (p : char -> bool) (x : char) (s : str) :
  In x (strip_by p s) -> In x s.
Proof.
  unfold strip_by, rstrip_by. intros H. apply in_rev in H.
  apply in_lstrip_by in H. apply in_rev in H. now apply in_lstrip_by in H.
Qed.






Lemma numbered_nonempty (steps : list str) (i : nat) :
  steps <> [] -> numbered i steps <> [].
Proof. destruct steps; [congruence | discriminate]. Qed.



(** ** Ids are slugs *)

Section SkippedFacts.

Variable fl : flags.
Variable r : regex.
Variable P : char -> Prop.

(** [P] holds of every character at which an attempt can fail. *)
Hypothesis Hfail : forall prev c s,
  match_at fl r false prev (c :: s) = None -> P c.

(** The characters a search passes over are characters where the attempt
    failed. *)
Lemma search_from_skipped : forall rest prev,
  match search_from fl r false prev rest with
  | Some (n, _, _) => Forall P (firstn n rest)
  | None => Forall P rest
  end.
Proof.
  induction rest as [| c rest IH]; intros prev; cbn [search_from].
  - destruct (match_at fl r false prev []) as [e |]; constructor.
  - destruct (match_at fl r false prev (c :: rest)) as [e |] eqn:E;
      [constructor |].
    specialize (IH (Some c)).
    destruct (search_from fl r false (Some c) rest) as [[[n from] e] |];
      cbn [firstn]; constructor; eauto.
Qed.

(** With a consuming pattern, what [re.sub] leaves of the text is made of
    such characters, and the rest is the replacement. *)
Lemma sub_go_scan_chars (Hc : consuming r = true) (s repl : str) :
  forall fuel off prev rest,
    2 * length rest + 2 <= fuel -> rest = skipn off s ->
    Forall (fun c => P c \/ In c repl)
      (sub_go s off (scan fl fuel r false off prev rest) repl).
Proof.
  induction fuel as [| fuel IH]; intros off prev rest Hfuel Hrest; [lia |].
  cbn [scan]. pose proof (search_from_skipped rest prev) as Hskip.
  destruct (search_from fl r false prev rest) as [[[n from] [[p after] c]] |]
    eqn:E.
  - apply search_from_inv in E.
    destruct E as (Hn & Hfrom & Hs & _ & Hlt & _). specialize (Hlt Hc).
    pose proof (suffix_skipn Hs) as Hafter. apply suffix_length in Hs.
    assert (Hlen : length from = length rest - n)
      by (subst from; apply length_skipn).
    cbn [sub_go mk_match m_start m_end].
    replace (Nat.eqb (off + n + (length from - length after)) (off + n))
      with false by (symmetry; apply Nat.eqb_neq; lia).
    apply Forall_app. split; [| apply Forall_app; split].
    + unfold slice. rewrite <- Hrest.
      replace (off + n - off) with n by lia.
      eapply Forall_impl; [| exact Hskip]. simpl. auto.
    + apply Forall_forall. auto.
    + apply IH; [lia |].
      rewrite Hafter at 1. rewrite Hfrom, Hrest, !skipn_skipn. f_equal. lia.
  - cbn [sub_go]. rewrite <- Hrest.
    eapply Forall_impl; [| exact Hskip]. simpl. auto.
Qed.

End SkippedFacts.

(** A repetition whose minimum is reached cannot fail when what follows
    it cannot. *)
Lemma rloop_succeeds body lo hi greedy (k : cont) fuel n prev rest cs :
  (forall p s c, k p s c <> None) -> lo <= n ->
  rloop body lo hi greedy k (S fuel) n prev rest cs <> None.
Proof.
  intros Hk Hlo. rewrite rloop_step.
  replace (Nat.leb lo n) with true by (symmetry; now apply Nat.leb_le).
  destruct greedy.
  - destruct (if below n hi then _ else None); [discriminate | apply Hk].
  - destruct (k prev rest cs) eqn:E; [discriminate |].
    exfalso. eapply Hk. exact E.
Qed.

Lemma not_alnum_fails (prev : option char) (c : char) (s : str) :
  match_at NOFLAGS Pat.not_alnum false prev (c :: s) = None ->
  (is_lower c || is_digit c)%bool = true.
Proof.
  unfold match_at, Pat.not_alnum, plus, ncls. cbn [rmatch].
  rewrite rloop_step. cbn [below Nat.leb rmatch].
  destruct (set_matches NOFLAGS true [r_ "a" "z"; r_ "0" "9"] c) eqn:E.
  - cbn [length]. rewrite (proj2 (Nat.ltb_lt _ _) (Nat.lt_succ_diag_r _)).
    intros H. exfalso. revert H.
    destruct (rloop _ 1 None true _ (S (length s)) 1 (Some c) s []) eqn:E2;
      [discriminate |].
    exfalso. revert E2. apply rloop_succeeds; [| lia].
    intros p s' c'. cbn [andb]. discriminate.
  - intros _. unfold set_matches in E. cbn [existsb] in E.
    unfold citem_matches in E. cbn [IGNORECASE NOFLAGS] in E.
    change (citem_has (r_ "a" "z") c) with (is_lower c) in E.
    change (citem_has (r_ "0" "9") c) with (is_digit c) in E.
    rewrite orb_false_r in E.
    destruct (is_lower c || is_digit c)%bool; [reflexivity | discriminate].
Qed.

Lemma re_sub_not_alnum (s : str) :
  Forall (fun c => slug_char c = true)
    (re_sub NOFLAGS Pat.not_alnum (str_of "-") s).
Proof.
  unfold re_sub, finditer.
  eapply Forall_impl;
    [| apply (@sub_go_scan_chars NOFLAGS Pat.not_alnum
                (fun c => (is_lower c || is_digit c)%bool = true));
       [exact not_alnum_fails | reflexivity | lia | reflexivity]].
  simpl. intros c [Hc | [<- | []]]; unfold slug_char.
  - now rewrite Hc.
  - reflexivity.
Qed.

Lemma id_base_of_slug (first : str) :
  Forall (fun c => slug_char c = true) (id_base_of first).
Proof.
  unfold id_base_of, strip_chars. apply Forall_forall. intros c Hc.
  apply in_firstn in Hc. apply in_strip_by in Hc.
  exact (proj1 (Forall_forall _ _) (re_sub_not_alnum (lower first)) c Hc).
Qed.

(** X11.  Every id is made of lower-case letters, digits and hyphens only:
    a base of at most 60 such characters, then "-p" and the page number. *)
Theorem parse_block_id_slug (block : Block.t) (r : record) :
  parse_block block = Ret (Some r) ->
  Forall (fun c => slug_char c = true) (id r)
  /\ exists base,
       id r = base ++ str_of "-p" ++ dec (Block.page block)
       /\ length base <= 60
       /\ Forall (fun c => slug_char c = true) base.
Proof.
  intros H. apply parse_block_inv in H.
  destruct H as (_ & _ & _ & _ & _ & _ & _ & _ & _ & _ & Hid & _).
  assert (Hdec : Forall (fun c => slug_char c = true) (dec (Block.page block))).
  { eapply Forall_impl; [| apply dec_chars]. simpl. unfold slug_char.
    intros c [Hc | ->]; [rewrite Hc; now rewrite orb_true_r | reflexivity]. }
  split.
  - rewrite Hid. apply Forall_app. split; [apply id_base_of_slug |].
    apply Forall_app. split; [repeat constructor | exact Hdec].
  - exists (id_base_of (hd [] (ecamMessages r))).
    split; [exact Hid |]. split; [apply firstn_le_length | apply id_base_of_slug].
Qed.

Lemma parse_block_id_slug_witness :
  exists r,
    parse_block (scenario_block 3) = Ret (Some r)
    /\ id r = str_of "pack-fault-reset-p3"
    /\ Forall (fun c => slug_char c = true) (id r).
Proof.
  destruct (parse_block (scenario_block 3)) as [[r |] | e] eqn:E;
    try (vm_compute in E; discriminate).
  exists r. split; [reflexivity |]. split.
  - vm_compute in E. injection E as <-. reflexivity.
  - exact (proj1 (parse_block_id_slug (scenario_block 3) E)).
Defined.

(** ** The shape of what the patterns capture *)

Section ShapeFacts.

Variable fl : flags.
Variable G : list (nat * regex).

Lemma shaped_nil (r : regex) :
  min_len r = 0 -> shaped fl r [].
Proof.
  intros H. split; [constructor |]. split; [simpl; lia |].
  intros m _. simpl. lia.
Qed.

Lemma caps_shaped_cons (i : nat) (body : regex) (v : str) (cs : caps) :
  In (i, body) G -> shaped fl body v -> caps_shaped fl G cs ->
  caps_shaped fl G ((i, v) :: cs).
Proof.
  intros Hin Hv Hcs j w. cbn [cap_get].
  destruct (Nat.eqb_spec j i) as [-> | Hne].
  - intros H. injection H as <-. now exists body.
  - apply Hcs.
Qed.

(** The text a repetition reads, from round [n] on. *)
Lemma rloop_shape body r1 lo hi greedy k
    (Hbody : forall prev rest cs k' x,
        caps_shaped fl G cs ->
        body prev rest cs k' = Some x ->
        exists p s c t, rest = t ++ s /\ shaped fl r1 t
                        /\ caps_shaped fl G c /\ k' p s c = Some x) :
  forall fuel n prev rest cs x,
    caps_shaped fl G cs ->
    rloop body lo hi greedy k fuel n prev rest cs = Some x ->
    exists p s c t,
      rest = t ++ s
      /\ Forall (fun a => accepts fl r1 a = true) t
      /\ (lo - n) * min_len r1 <= length t
      /\ (forall h m, hi = Some h -> max_len r1 = Some m ->
          length t <= (h - n) * m)
      /\ caps_shaped fl G c /\ k p s c = Some x.
Proof.
  induction fuel as [| fuel IH]; intros n prev rest cs x Hcs H;
    [discriminate |].
  rewrite rloop_step in H.
  assert (Hagain : forall y,
    (if below n hi
     then body prev rest cs
            (fun p s c => if Nat.ltb (length s) (length rest)
                          then rloop body lo hi greedy k fuel (S n) p s c
                          else None)
     else None) = Some y ->
    exists p s c t,
      rest = t ++ s
      /\ Forall (fun a => accepts fl r1 a = true) t
      /\ (lo - n) * min_len r1 <= length t
      /\ (forall h m, hi = Some h -> max_len r1 = Some m ->
          length t <= (h - n) * m)
      /\ caps_shaped fl G c /\ k p s c = Some y).
  { intros y. destruct (below n hi) eqn:Hb; [| discriminate]. intros Hy.
    apply Hbody in Hy; [| exact Hcs].
    destruct Hy as (p1 & s1 & c1 & t1 & -> & (Ha1 & Hmin1 & Hmax1) & Hc1 & Hy).
    destruct (Nat.ltb (length s1) (length (t1 ++ s1))); [| discriminate].
    apply IH in Hy; [| exact Hc1].
    destruct Hy as (p2 & s2 & c2 & t2 & -> & Ha2 & Hmin2 & Hmax2 & Hc2 & Hy).
    exists p2, s2, c2, (t1 ++ t2). rewrite <- app_assoc.
    split; [reflexivity |]. split; [now apply Forall_app |].
    rewrite length_app. split; [nia |]. split; [| now split].
    intros h m -> Hm. specialize (Hmax1 m Hm).
    specialize (Hmax2 h m eq_refl Hm). cbn [below] in Hb.
    apply Nat.ltb_lt in Hb. nia. }
  assert (Hleave : forall y,
    (if Nat.leb lo n then k prev rest cs else None) = Some y ->
    exists p s c t,
      rest = t ++ s
      /\ Forall (fun a => accepts fl r1 a = true) t
      /\ (lo - n) * min_len r1 <= length t
      /\ (forall h m, hi = Some h -> max_len r1 = Some m ->
          length t <= (h - n) * m)
      /\ caps_shaped fl G c /\ k p s c = Some y).
  { intros y. destruct (Nat.leb_spec lo n); [| discriminate]. intros Hy.
    exists prev, rest, cs, []. split; [reflexivity |].
    split; [constructor |].
    split; [replace (lo - n) with 0 by lia; simpl; lia |].
    split; [| now split]. intros h m _ _. apply Nat.le_0_l. }
  destruct greedy.
  - destruct (if below n hi then _ else None) as [y |].
    + apply Hagain. exact H.
    + apply Hleave. exact H.
  - destruct (if Nat.leb lo n then _ else None) as [y |].
    + apply Hleave. exact H.
    + apply Hagain. exact H.
Qed.

(** A successful match reads a text of the pattern's shape, and every
    group it sets has the shape of the pattern inside that group. *)
Lemma rmatch_shape r : incl (groups_of r) G ->
  forall prev rest cs k x,
    caps_shaped fl G cs ->
    rmatch fl r prev rest cs k = Some x ->
    exists p s c t, rest = t ++ s /\ shaped fl r t
                    /\ caps_shaped fl G c /\ k p s c = Some x.
Proof.
  induction r as [| neg items | | r1 IH1 r2 IH2 | r1 IH1 r2 IH2
                 | r1 IH1 lo hi greedy | j r1 IH1 | r1 IH1 | | |];
    intros HG prev rest cs k x Hcs H; cbn [rmatch] in H; cbn [groups_of] in HG.
  - exists prev, rest, cs, []. repeat split; auto; try constructor.
    intros m Hm. simpl. lia.
  - destruct rest as [| c rest']; [discriminate |].
    destruct (set_matches fl neg items c) eqn:E; [| discriminate].
    exists (Some c), rest', cs, [c]. split; [reflexivity |].
    split; [| now split]. split; [now repeat constructor |].
    split; [simpl; lia |]. intros m Hm. injection Hm as <-. simpl. lia.
  - destruct rest as [| c rest']; [discriminate |].
    destruct (DOTALL fl || negb (N.eqb c NL))%bool eqn:E; [| discriminate].
    exists (Some c), rest', cs, [c]. split; [reflexivity |].
    split; [| now split]. split; [now repeat constructor |].
    split; [simpl; lia |]. intros m Hm. injection Hm as <-. simpl. lia.
  - apply IH1 in H; [| intros y Hy; apply HG, in_or_app; now left | exact Hcs].
    destruct H as (p1 & s1 & c1 & t1 & -> & (Ha1 & Hmin1 & Hmax1) & Hc1 & H).
    apply IH2 in H; [| intros y Hy; apply HG, in_or_app; now right | exact Hc1].
    destruct H as (p2 & s2 & c2 & t2 & -> & (Ha2 & Hmin2 & Hmax2) & Hc2 & H).
    exists p2, s2, c2, (t1 ++ t2). rewrite <- app_assoc.
    split; [reflexivity |]. split; [| now split]. split; [| split].
    + apply Forall_app. split; (eapply Forall_impl; [| eassumption]);
        simpl; intros a Ha; rewrite Ha; auto using orb_true_r.
    + rewrite length_app. simpl. lia.
    + intros m Hm. cbn [max_len] in Hm. rewrite length_app.
      destruct (max_len r1) as [a |]; [| discriminate].
      destruct (max_len r2) as [b |]; [| discriminate].
      injection Hm as <-. specialize (Hmax1 a eq_refl).
      specialize (Hmax2 b eq_refl). lia.
  - assert (Hor : forall r', (r' = r1 \/ r' = r2) ->
              forall t, shaped fl r' t -> shaped fl (Or r1 r2) t).
    { intros r' Hr' t (Ha & Hmin & Hmax). split; [| split].
      - eapply Forall_impl; [| exact Ha]. simpl. intros a Haa.
        destruct Hr' as [-> | ->]; rewrite Haa; auto using orb_true_r.
      - simpl. destruct Hr' as [-> | ->]; lia.
      - intros m Hm. cbn [max_len] in Hm.
        destruct (max_len r1) as [a |] eqn:E1; [| discriminate].
        destruct (max_len r2) as [b |] eqn:E2; [| discriminate].
        injection Hm as <-.
        destruct Hr' as [-> | ->];
          [specialize (Hmax a E1) | specialize (Hmax b E2)]; lia. }
    destruct (rmatch fl r1 prev rest cs k) as [y |] eqn:E.
    + injection H as ->.
      apply IH1 in E; [| intros y Hy; apply HG, in_or_app; now left | exact Hcs].
      destruct E as (p & s & c & t & -> & Ht & Hc & E).
      exists p, s, c, t. repeat split; auto; apply (Hor r1); auto.
    + apply IH2 in H; [| intros y Hy; apply HG, in_or_app; now right | exact Hcs].
      destruct H as (p & s & c & t & -> & Ht & Hc & H).
      exists p, s, c, t. repeat split; auto; apply (Hor r2); auto.
  - apply (@rloop_shape (rmatch fl r1) r1) in H; [| | exact Hcs].
    + destruct H as (p & s & c & t & -> & Ha & Hmin & Hmax & Hc & H).
      exists p, s, c, t. split; [reflexivity |]. split; [| now split].
      split; [exact Ha |]. split; [simpl; rewrite Nat.sub_0_r in Hmin; exact Hmin |].
      intros m Hm. cbn [max_len] in Hm.
      destruct hi as [h |]; [| discriminate].
      destruct (max_len r1) as [m1 |] eqn:E1; [| discriminate].
      injection Hm as <-. specialize (Hmax h m1 eq_refl eq_refl).
      rewrite Nat.sub_0_r in Hmax. exact Hmax.
    + intros prev' rest' cs' k' x' Hcs' H'. now apply IH1 in H'.
  - apply IH1 in H; [| intros y Hy; apply HG; now right | exact Hcs].
    destruct H as (p & s & c & t & -> & Ht & Hc & H).
    exists p, s, ((j, t) :: c), t. split; [reflexivity |].
    split; [exact Ht |]. split.
    + apply caps_shaped_cons with (body := r1); auto. apply HG. now left.
    + rewrite <- H. f_equal. f_equal. f_equal.
      rewrite length_app. replace (length t + length s - length s)
        with (length t) by lia.
      now rewrite firstn_app, firstn_all, Nat.sub_diag, app_nil_r.
  - destruct (rmatch fl r1 prev rest cs (fun p s c => Some (p, s, c)))
      as [[[p0 s0] c0] |] eqn:E; [| discriminate].
    apply IH1 in E; [| exact HG | exact Hcs].
    destruct E as (p & s & c & t & _ & _ & Hc & E). injection E as _ _ ->.
    exists prev, rest, c0, []. split; [reflexivity |].
    split; [now apply shaped_nil |]. now split.
  - destruct (xorb (word_before prev) (word_after rest)); [| discriminate].
    exists prev, rest, cs, []. split; [reflexivity |].
    split; [now apply shaped_nil |]. now split.
  - destruct rest; [| discriminate].
    exists prev, [], cs, []. split; [reflexivity |].
    split; [now apply shaped_nil |]. now split.
  - destruct prev; [discriminate |].
    exists None, rest, cs, []. split; [reflexivity |].
    split; [now apply shaped_nil |]. now split.
Qed.

End ShapeFacts.

Section ShapeOfMatches.

Variable fl : flags.

Lemma match_at_shape r adv prev rest p s c :
  match_at fl r adv prev rest = Some (p, s, c) ->
  caps_shaped fl (groups_of r) c
  /\ shaped fl r (firstn (length rest - length s) rest).
Proof.
  unfold match_at. intros H.
  apply (@rmatch_shape fl (groups_of r)) in H;
    [| apply incl_refl | intros i v Hv; discriminate].
  destruct H as (p' & s' & c' & t & -> & Ht & Hc & H).
  destruct (adv && _)%bool; [discriminate |]. injection H as -> -> ->.
  split; [exact Hc |]. rewrite length_app.
  replace (length t + length s - length s) with (length t) by lia.
  now rewrite firstn_app, firstn_all, Nat.sub_diag, app_nil_r.
Qed.

Lemma search_from_shape r : forall rest adv prev n from p s c,
  search_from fl r adv prev rest = Some (n, from, (p, s, c)) ->
  caps_shaped fl (groups_of r) c
  /\ shaped fl r (firstn (length from - length s) from).
Proof.
  induction rest as [| a rest IH]; intros adv prev n from p s c H;
    cbn [search_from] in H.
  - destruct (match_at fl r adv prev []) as [[[p0 s0] c0] |] eqn:E;
      [| discriminate].
    injection H as <- <- <- <- <-. now apply match_at_shape in E.
  - destruct (match_at fl r adv prev (a :: rest)) as [[[p0 s0] c0] |] eqn:E.
    + injection H as <- <- <- <- <-. now apply match_at_shape in E.
    + destruct (search_from fl r false (Some a) rest)
        as [[[n1 from1] [[p1 s1] c1]] |] eqn:E1; [| discriminate].
      injection H as <- <- <- <- <-. now apply IH in E1.
Qed.

Lemma scan_shape r : forall fuel adv off prev rest,
  Forall (fun m => caps_shaped fl (groups_of r) (m_caps m)
                   /\ shaped fl r (m_text m))
    (scan fl fuel r adv off prev rest).
Proof.
  induction fuel as [| fuel IH]; intros adv off prev rest; cbn [scan];
    [constructor |].
  destruct (search_from fl r adv prev rest) as [[[n from] [[p after] c]] |]
    eqn:E; [| constructor].
  constructor; [| apply IH]. apply search_from_shape in E. exact E.
Qed.

Lemma re_search_shape r (s : str) (m : match_obj) :
  re_search fl r s = Some m ->
  caps_shaped fl (groups_of r) (m_caps m) /\ shaped fl r (m_text m).
Proof.
  unfold re_search.
  destruct (search_from fl r false None s) as [[[n from] [[p after] c]] |]
    eqn:E; [| discriminate].
  intros H. injection H as <-. apply search_from_shape in E. exact E.
Qed.

End ShapeOfMatches.

Lemma is_word_bounds (c : char) : is_word c = true -> (48 <= c <= 122)%N.
Proof.
  unfold is_word, is_digit, is_upper, is_lower, in_range.
  rewrite !orb_true_iff, !andb_true_iff, !N.leb_le, N.eqb_eq. lia.
Qed.

Lemma bounds_not_space (c : char) : (48 <= c <= 122)%N -> is_space c = false.
Proof.
  intros H. unfold is_space, in_range.
  rewrite (proj2 (N.leb_gt c 13)) by lia.
  rewrite (proj2 (N.leb_gt c 32)) by lia.
  rewrite (proj2 (N.leb_gt 8192 c)) by lia.
  repeat rewrite (proj2 (N.eqb_neq c _)) by lia.
  now rewrite !andb_false_r.
Qed.

Lemma is_word_not_space (c : char) : is_word c = true -> is_space c = false.
Proof. intros H. apply bounds_not_space. now apply is_word_bounds. Qed.

Lemma is_word_case (c : char) :
  (is_word (lower_char c) || is_word (upper_char c))%bool = true ->
  is_word c = true.
Proof.
  unfold lower_char, upper_char.
  destruct (is_upper c) eqn:Eu.
  - intros _. unfold is_word. rewrite Eu. now rewrite orb_true_r.
  - destruct (is_lower c) eqn:El.
    + intros _. unfold is_word. rewrite El. now rewrite orb_true_r.
    + now rewrite orb_diag.
Qed.

Lemma word_item_has (it : citem) (x : char) :
  word_item it = true -> citem_has it x = true -> is_word x = true.
Proof.
  destruct it as [c | lo hi | | | |]; cbn [word_item citem_has];
    try discriminate; intros Hw Hx.
  - apply N.eqb_eq in Hx. now subst.
  - unfold in_range in Hx. apply andb_true_iff in Hx.
    destruct Hx as [H1 H2]. apply N.leb_le in H1, H2.
    unfold is_word, is_digit, is_upper, is_lower, in_range.
    rewrite !orb_true_iff, !andb_true_iff, !N.leb_le in *. lia.
  - unfold is_word. now rewrite Hx.
  - exact Hx.
Qed.

Lemma word_only_accepts (fl : flags) (r : regex) (c : char) :
  word_only r = true -> accepts fl r c = true -> is_word c = true.
Proof.
  induction r as [| neg items | | r1 IH1 r2 IH2 | r1 IH1 r2 IH2
                 | r1 IH1 lo hi greedy | j r1 IH1 | r1 IH1 | | |];
    cbn [word_only accepts]; try discriminate; intros Hw Ha; auto.
  - apply andb_true_iff in Hw. destruct Hw as [Hn Hi].
    destruct neg; [discriminate |]. unfold set_matches in Ha. cbn [xorb] in Ha.
    apply existsb_exists in Ha. destruct Ha as (it & Hin & Hm).
    pose proof (proj1 (forallb_forall _ _) Hi it Hin) as Hit.
    unfold citem_matches in Hm. destruct (IGNORECASE fl).
    + apply is_word_case. apply orb_true_iff in Hm. apply orb_true_iff.
      destruct Hm as [Hm | Hm]; [left | right]; eapply word_item_has; eauto.
    + eapply word_item_has; eauto.
  - apply andb_true_iff in Hw. apply orb_true_iff in Ha.
    destruct Hw, Ha; auto.
  - apply andb_true_iff in Hw. apply orb_true_iff in Ha.
    destruct Hw, Ha; auto.
Qed.

Lemma lstrip_by_id (p : char -> bool) (s : str) :
  Forall (fun c => p c = false) s -> lstrip_by p s = s.
Proof.
  destruct s as [| c s]; [reflexivity |]. intros H.
  inversion H as [| ? ? Hc _]; subst. cbn [lstrip_by]. now rewrite Hc.
Qed.

Lemma strip_by_id (p : char -> bool) (s : str) :
  Forall (fun c => p c = false) s -> strip_by p s = s.
Proof.
  intros H. unfold strip_by, rstrip_by. rewrite (@lstrip_by_id p s H).
  rewrite lstrip_by_id; [apply rev_involutive |]. now apply Forall_rev.
Qed.

(** A group with a word-only pattern inside is a word field, and
    stripping leaves it as it is. *)
Lemma shaped_word_field (fl : flags) (body : regex) (v : str) (hi : nat) :
  word_only body = true -> max_len body = Some hi -> shaped fl body v ->
  word_field (min_len body) hi (strip v).
Proof.
  intros Hw Hmax (Ha & Hmin & Hm).
  assert (Hword : Forall (fun c => is_word c = true) v).
  { eapply Forall_impl; [| exact Ha]. simpl. intros c.
    now apply word_only_accepts. }
  unfold strip. rewrite strip_by_id.
  - split; [exact Hword |]. split; [exact Hmin | now apply Hm].
  - eapply Forall_impl; [| exact Hword]. simpl. apply is_word_not_space.
Qed.

(** X12.  On an ASCII text the chapter code of a record is always two
    digits: the two digits that follow ATA or TASK in the text, or "00". *)
Theorem parse_block_ata_digits (block : Block.t) (r : record) :
  ascii_text (Block.text block) ->
  parse_block block = Ret (Some r) ->
  exists a b, ata r = Some [a; b] /\ is_digit a = true /\ is_digit b = true.
Proof.
  intros _ H. apply parse_block_inv in H. destruct H as (_ & _ & -> & _).
  destruct (re_search NOFLAGS Pat.ata (Block.text block)) as [m |] eqn:E.
  - pose proof (re_search_bound _ _ _ E 1) as Hb.
    apply re_search_shape in E. destruct E as [Hc _].
    unfold group. unfold bound in Hb.
    destruct (cap_get 1 (m_caps m)) as [v |] eqn:Ev;
      [| exfalso; apply Hb; simpl; auto].
    destruct (Hc 1 v Ev) as (body & Hin & Ha & Hmin & Hmax).
    destruct Hin as [Hin | []]. injection Hin as <-.
    specialize (Hmax 2 eq_refl). cbn in Hmin.
    destruct v as [| a [| b [| c v]]]; simpl in Hmin, Hmax; try lia.
    inversion Ha as [| ? ? Haa Ha']; subst.
    inversion Ha' as [| ? ? Hbb _]; subst.
    exists a, b. cbn in Haa, Hbb. rewrite orb_false_r in Haa, Hbb. auto.
  - exists 48%N, 48%N. auto.
Qed.

Lemma parse_block_ata_digits_witness :
  ascii_text (Block.text (scenario_block 3))
  /\ exists r, parse_block (scenario_block 3) = Ret (Some r)
               /\ ata r = Some (str_of "24").
Proof.
  assert (Hascii : ascii_text (Block.text (scenario_block 3))) by reflexivity.
  split; [exact Hascii |].
  destruct (parse_block (scenario_block 3)) as [[r |] | e] eqn:E;
    try (vm_compute in E; discriminate).
  exists r. split; [reflexivity |].
  destruct (@parse_block_ata_digits (scenario_block 3) r Hascii E)
    as (a & b & Ha & _).
  vm_compute in E. injection E as <-. reflexivity.
Defined.

(** ** The shape of the rows of a table *)

Lemma letter_bounds (c : char) :
  (is_upper c || is_lower c)%bool = true -> (65 <= c <= 122)%N.
Proof.
  unfold is_upper, is_lower, in_range.
  rewrite !orb_true_iff, !andb_true_iff, !N.leb_le. lia.
Qed.

Lemma letter_not_fsn_char (c : char) :
  (65 <= c <= 122)%N -> fsn_char c = false.
Proof.
  intros H. unfold fsn_char. rewrite bounds_not_space by lia.
  unfold is_digit, in_range. rewrite (proj2 (N.leb_gt c 57)) by lia.
  repeat rewrite (proj2 (N.eqb_neq c _)) by lia.
  now rewrite andb_false_r.
Qed.

Lemma lower_char_letter (c : char) :
  is_upper c = true -> (65 <= lower_char c <= 122)%N.
Proof.
  intros H. unfold lower_char. rewrite H. unfold is_upper, in_range in H.
  apply andb_true_iff in H. rewrite !N.leb_le in H. lia.
Qed.

Lemma upper_char_letter (c : char) :
  is_lower c = true -> (65 <= upper_char c <= 122)%N.
Proof.
  intros H. unfold upper_char. rewrite H. unfold is_lower, in_range in H.
  apply andb_true_iff in H. rewrite !N.leb_le in H. lia.
Qed.

Lemma case_of_other (c : char) :
  is_upper c = false -> is_lower c = false ->
  lower_char c = c /\ upper_char c = c.
Proof. intros Hu Hl. unfold lower_char, upper_char. now rewrite Hu, Hl. Qed.

Lemma fsn_char_case (c : char) :
  (fsn_char (lower_char c) || fsn_char (upper_char c))%bool = true ->
  fsn_char c = true.
Proof.
  destruct (is_upper c) eqn:Eu; [| destruct (is_lower c) eqn:El].
  - rewrite (letter_not_fsn_char (lower_char_letter c Eu)).
    assert (El : is_lower c = false).
    { unfold is_upper, is_lower, in_range in *.
      apply andb_true_iff in Eu. rewrite !N.leb_le in Eu.
      rewrite (proj2 (N.leb_gt 97 c)) by lia. reflexivity. }
    unfold upper_char. rewrite El. rewrite letter_not_fsn_char; [discriminate |].
    apply letter_bounds. now rewrite Eu.
  - rewrite (letter_not_fsn_char (upper_char_letter c El)).
    unfold lower_char. rewrite Eu. rewrite letter_not_fsn_char; [discriminate |].
    apply letter_bounds. rewrite El. apply orb_true_r.
  - destruct (case_of_other c Eu El) as [-> ->]. now rewrite orb_diag.
Qed.

Lemma designation_char_case (c : char) :
  (designation_char (lower_char c) || designation_char (upper_char c))%bool
    = true ->
  designation_char c = true.
Proof.
  destruct (is_upper c) eqn:Eu; [| destruct (is_lower c) eqn:El].
  - intros _. unfold designation_char, is_word. rewrite Eu.
    now rewrite !orb_true_r.
  - intros _. unfold designation_char, is_word. rewrite El.
    now rewrite !orb_true_r.
  - destruct (case_of_other c Eu El) as [-> ->]. now rewrite orb_diag.
Qed.

Lemma accepts_designation (c : char) :
  accepts I_ (plus_lazy (cls [CWord; c_ "/"; c_ "-"; c_ " "])) c = true ->
  designation_char c = true.
Proof.
  intros H. apply designation_char_case. revert H.
  cbn [accepts plus_lazy cls]. unfold set_matches, citem_matches.
  cbn [IGNORECASE I_ existsb xorb citem_has c_ str_of].
  change (citem_has (c_ "/")) with (fun x => N.eqb x 47%N).
  change (citem_has (c_ "-")) with (fun x => N.eqb x 45%N).
  change (citem_has (c_ " ")) with (fun x => N.eqb x 32%N).
  cbv beta. unfold designation_char.
  destruct (is_word (lower_char c)), (is_word (upper_char c)),
    (N.eqb (lower_char c) 47), (N.eqb (upper_char c) 47),
    (N.eqb (lower_char c) 45), (N.eqb (upper_char c) 45),
    (N.eqb (lower_char c) 32), (N.eqb (upper_char c) 32);
    simpl; intros H; try reflexivity; discriminate.
Qed.

Lemma accepts_fsn (c : char) :
  accepts I_ (star (cls [CDigit; c_ "-"; c_ ","; CSpace])) c = true ->
  fsn_char c = true.
Proof.
  intros H. apply fsn_char_case. revert H.
  cbn [accepts star cls]. unfold set_matches, citem_matches.
  cbn [IGNORECASE I_ existsb xorb citem_has].
  change (citem_has (c_ "-")) with (fun x => N.eqb x 45%N).
  change (citem_has (c_ ",")) with (fun x => N.eqb x 44%N).
  cbv beta. unfold fsn_char.
  destruct (is_digit (lower_char c)), (is_digit (upper_char c)),
    (N.eqb (lower_char c) 45), (N.eqb (upper_char c) 45),
    (N.eqb (lower_char c) 44), (N.eqb (upper_char c) 44),
    (is_space (lower_char c)), (is_space (upper_char c));
    simpl; intros H; try reflexivity; discriminate.
Qed.

Lemma Forall_strip (P : char -> Prop) (s : str) :
  Forall P s -> Forall P (strip s).
Proof.
  intros H. apply Forall_forall. intros x Hx.
  apply in_strip_by in Hx. revert x Hx. now apply Forall_forall.
Qed.

(** The groups of a match of the full pattern have the shapes of the
    pattern's groups. *)
Lemma cb_full_groups (cs : caps) (i : nat) (v : str) :
  caps_shaped I_ (groups_of Pat.cb_full) cs -> cap_get i cs = Some v ->
  match i with
  | 1 => shaped I_ (cat [times digit 2 3; lit "VU"]) v
  | 2 => shaped I_ (plus_lazy (cls [CWord; c_ "/"; c_ "-"; c_ " "])) v
  | 3 => shaped I_ (times word 2 6) v
  | 4 => shaped I_ (cat [cls [r_ "A" "Z"]; times digit 2 2]) v
  | 5 => shaped I_ (star (cls [CDigit; c_ "-"; c_ ","; CSpace])) v
  | _ => False
  end.
Proof.
  intros Hc Hv. destruct (Hc i v Hv) as (body & Hin & Hs).
  cbn in Hin.
  repeat (destruct Hin as [Hin | Hin];
          [injection Hin as <- <-; exact Hs |]).
  destruct Hin.
Qed.

Lemma cb_rows_of_match_shape (default_fsn : str) (m : match_obj)
    (rows : list cb_row) :
  caps_shaped I_ (groups_of Pat.cb_full) (m_caps m) ->
  cb_rows_of_match 5 default_fsn m = Ret rows ->
  Forall (row_shape default_fsn) rows.
Proof.
  intros Hc. unfold cb_rows_of_match, strip_nth.
  cbn [groups seq List.map length Nat.leb Nat.ltb nth]. unfold group.
  destruct (cap_get 1 (m_caps m)) as [g1 |] eqn:E1; [| discriminate].
  destruct (cap_get 2 (m_caps m)) as [g2 |] eqn:E2; [| discriminate].
  destruct (cap_get 3 (m_caps m)) as [g3 |] eqn:E3; [| discriminate].
  destruct (cap_get 4 (m_caps m)) as [g4 |] eqn:E4; [| discriminate].
  destruct (cap_get 5 (m_caps m)) as [g5 |] eqn:E5; [| discriminate].
  cbn [strip_opt bind]. intros H. injection H as <-.
  pose proof (cb_full_groups 1 Hc E1) as H1.
  pose proof (cb_full_groups 2 Hc E2) as H2.
  pose proof (cb_full_groups 3 Hc E3) as H3.
  pose proof (cb_full_groups 4 Hc E4) as H4.
  pose proof (cb_full_groups 5 Hc E5) as H5.
  cbv beta iota in H1, H2, H3, H4, H5.
  constructor; [| constructor]. unfold row_shape.
  cbn [panel designation fin location fsn].
  split; [| split; [| split; [| split]]].
  - refine (@shaped_word_field I_ _ g1 5 _ _ H1); reflexivity.
  - apply Forall_strip. destruct H2 as [Ha _].
    eapply Forall_impl; [| exact Ha]. simpl. apply accepts_designation.
  - refine (@shaped_word_field I_ _ g3 6 _ _ H3); reflexivity.
  - refine (@shaped_word_field I_ _ g4 3 _ _ H4); reflexivity.
  - destruct (strip g5) as [| c s5] eqn:E; [now left |]. right.
    cbn [is_empty negb]. split; [discriminate |].
    rewrite <- E. apply Forall_strip. destruct H5 as [Ha _].
    eapply Forall_impl; [| exact Ha]. simpl. apply accepts_fsn.
Qed.

Lemma Forall_concat {A} (P : A -> Prop) (ls : list (list A)) :
  Forall (Forall P) ls -> Forall P (concat ls).
Proof.
  induction 1 as [| l ls Hl _ IH]; cbn [concat]; [constructor |].
  apply Forall_app. now split.
Qed.

Lemma dedup_fin_incl : forall cb_entries seen_fins r,
  In r (dedup_fin seen_fins cb_entries) -> In r cb_entries.
Proof.
  induction cb_entries as [| cb rest IH]; intros seen r; cbn [dedup_fin];
    [tauto |].
  destruct (negb _).
  - intros [-> | H]; [now left | right; eapply IH; eauto].
  - intros H. right. eapply IH; eauto.
Qed.

(** X13.  On an ASCII text every row of a table has the shape of the
    five-column pattern: the panel is 4 or 5 word characters, the FIN 2 to
    6, the location 3; the designation is made of word characters,
    slashes, hyphens and spaces; the serial numbers are the default, or a
    non-empty string of digits, hyphens, commas and white space. *)
Theorem parse_cb_table_rows_shaped (text default_fsn : str) :
  ascii_text text ->
  exists rows, parse_cb_table text default_fsn = Ret rows
               /\ Forall (row_shape default_fsn) rows.
Proof.
  intros _.
  destruct (cb_collect_total text default_fsn) as (raw & Hraw & Hc).
  exists (firstn 10 (dedup_fin [] (concat raw))).
  unfold parse_cb_table. rewrite Hc. cbn [bind]. split; [reflexivity |].
  assert (Hall : Forall (row_shape default_fsn) (concat raw)).
  { apply Forall_concat.
    assert (Hms : Forall (fun m => caps_shaped I_ (groups_of Pat.cb_full)
                                     (m_caps m))
                    (finditer I_ Pat.cb_full text)).
    { eapply Forall_impl; [| apply scan_shape]. simpl. tauto. }
    clear Hc. revert raw Hraw Hms.
    induction (finditer I_ Pat.cb_full text) as [| m ms IH];
      intros raw Hraw Hms; cbn [map_exn] in Hraw.
    - injection Hraw as <-. constructor.
    - inversion Hms as [| ? ? Hm Hms']; subst.
      destruct (cb_rows_of_match 5 default_fsn m) as [rows |] eqn:E;
        [| discriminate]. cbn [bind] in Hraw.
      destruct (map_exn (cb_rows_of_match 5 default_fsn) ms) as [rest |] eqn:E';
        [| discriminate]. cbn [bind] in Hraw. injection Hraw as <-.
      constructor; [eapply cb_rows_of_match_shape; eauto | now apply IH]. }
  apply Forall_forall. intros r Hr. apply in_firstn in Hr.
  apply dedup_fin_incl in Hr. revert r Hr. now apply Forall_forall.
Qed.

Lemma parse_cb_table_rows_shaped_witness :
  ascii_text table_text
  /\ exists rows, parse_cb_table table_text (str_of "ALL") = Ret rows
                  /\ Forall (row_shape (str_of "ALL")) rows.
Proof.
  assert (Hascii : ascii_text table_text) by reflexivity.
  split; [exact Hascii |].
  exact (@parse_cb_table_rows_shaped table_text (str_of "ALL") Hascii).
Defined.

(** The serial numbers of a row run on over the line break into the
    digits that open the next row, which is then no row any more. *)
Example parse_cb_table_two_rows :
  parse_cb_table table_text (str_of "ALL")
  = Ret [{| panel := str_of "49VU";
            designation := str_of "AIR COND/ACSC1/SPLY";
            fin := str_of "1CA1";
            location := str_of "D01";
            fsn := str_of "101-150" ++ [NL] ++ str_of "121" |}].
Proof. vm_compute. reflexivity. Qed.

(** ** Page numbers *)

Lemma int_of_digits_acc (d : Decimal.uint) : forall acc : positive,
  fold_left (fun acc c => (10 * acc + (Z.of_N c - 48))%Z)
    (str_of (NilEmpty.string_of_uint d)) (Z.pos acc)
  = Z.pos (Pos.of_uint_acc d acc).
Proof.
  induction d as [| d IH | d IH | d IH | d IH | d IH | d IH | d IH | d IH
                 | d IH | d IH]; intros acc;
    [reflexivity | ..];
    cbn [NilEmpty.string_of_uint Pos.of_uint_acc];
    (match goal with
     | |- context [str_of (String ?a ?s)] =>
         change (str_of (String a s)) with (N_of_ascii a :: str_of s)
     end);
    cbn [fold_left]; rewrite <- IH; f_equal;
    rewrite ?Pos2Z.inj_add, ?Pos2Z.inj_mul;
    match goal with
    | |- context [N_of_ascii ?a] =>
        let v := eval vm_compute in (Z.of_N (N_of_ascii a) - 48)%Z in
        change (Z.of_N (N_of_ascii a) - 48)%Z with v
    end; lia.
Qed.

Lemma int_of_digits_uint (d : Decimal.uint) :
  int_of_digits (str_of (NilEmpty.string_of_uint d)) = Z.of_uint d.
Proof.
  unfold int_of_digits, Z.of_uint.
  induction d as [| d IH | d IH | d IH | d IH | d IH | d IH | d IH | d IH
                 | d IH | d IH];
    [reflexivity | ..];
    cbn [NilEmpty.string_of_uint Pos.of_uint];
    (match goal with
     | |- context [str_of (String ?a ?s)] =>
         change (str_of (String a s)) with (N_of_ascii a :: str_of s)
     end);
    cbn [fold_left Z.of_N]; [exact IH | ..];
    (match goal with
     | |- context [Pos.of_uint_acc d ?p] =>
         rewrite <- (int_of_digits_acc d p)
     end); f_equal.
Qed.

(** [int(str(n))] is [n], and [str(n)] is a non-empty run of digits. *)
Lemma dec_digits (n : Z) :
  (0 <= n)%Z ->
  dec n <> [] /\ Forall (fun c => is_digit c = true) (dec n)
  /\ int_of_digits (dec n) = n.
Proof.
  intros Hn. unfold dec.
  assert (H : exists d, d <> Decimal.Nil /\ Z.to_int n = Decimal.Pos d).
  { destruct n as [| p | p]; [| | lia]; cbn [Z.to_int].
    - eexists. split; [| reflexivity]. discriminate.
    - eexists. split; [| reflexivity].
      apply DecimalPos.Unsigned.to_uint_nonnil. }
  destruct H as (d & Hd & E). pose proof (DecimalZ.of_to n) as Hr.
  rewrite E in *. cbn [NilZero.string_of_int Z.of_int] in *.
  assert (Hs : NilZero.string_of_uint d = NilEmpty.string_of_uint d)
    by (destruct d; [contradiction | reflexivity ..]).
  rewrite Hs. split; [| split].
  - destruct d; [contradiction | discriminate ..].
  - apply string_of_uint_digits.
  - now rewrite int_of_digits_uint.
Qed.

(** A greedy run of digits takes every digit in front of a character that
    is not one, when the rest of the pattern matches from there. *)
Lemma rloop_digits (k : cont) (x : mstate) (rest : str) (cs : caps) :
  (forall p, k p rest cs = Some x) ->
  match rest with c :: _ => is_digit c = false | [] => True end ->
  forall ds fuel n prev,
    Forall (fun c => is_digit c = true) ds ->
    length (ds ++ rest) < fuel -> 1 <= n + length ds ->
    rloop (rmatch NOFLAGS (Set_ false [CDigit])) 1 None true k fuel n prev
      (ds ++ rest) cs = Some x.
Proof.
  intros Hk Hrest.
  induction ds as [| a ds IH]; intros fuel n prev Hds Hfuel Hn;
    (destruct fuel as [| fuel]; [simpl in Hfuel; lia |]);
    rewrite rloop_step; cbn [below app].
  - assert (Hnone : forall kk, rmatch NOFLAGS (Set_ false [CDigit]) prev rest
                                 cs kk = None).
    { intros kk. destruct rest as [| c rest']; [reflexivity |].
      cbn [rmatch]. unfold set_matches, citem_matches.
      cbn [IGNORECASE NOFLAGS existsb citem_has xorb]. now rewrite Hrest. }
    rewrite Hnone. simpl in Hn.
    replace (Nat.leb 1 n) with true by (symmetry; apply Nat.leb_le; lia).
    apply Hk.
  - inversion Hds as [| ? ? Ha Hds']; subst. cbn [rmatch].
    unfold set_matches, citem_matches.
    cbn [IGNORECASE NOFLAGS existsb citem_has xorb]. rewrite Ha.
    cbn [orb].
    replace (Nat.ltb (length (ds ++ rest)) (length (a :: ds ++ rest)))
      with true by (symmetry; apply Nat.ltb_lt; simpl; lia).
    rewrite IH; [reflexivity | exact Hds' | simpl in Hfuel; lia
                | simpl in Hn; lia].
Qed.

(** The pattern of the page markers matches at a marker, and takes its
    digits. *)
Lemma match_at_marker (adv : bool) (prev : option char) (ds R : str) :
  ds <> [] -> Forall (fun c => is_digit c = true) ds ->
  match_at NOFLAGS Pat.page_marker adv prev
    (str_of "<<<PAGE " ++ ds ++ str_of ">>>" ++ R)
  = Some (Some 62%N, R, [(1, ds)]).
Proof.
  intros Hne Hds. unfold match_at.
  let r := eval vm_compute in Pat.page_marker in
  change Pat.page_marker with r.
  change (str_of "<<<PAGE ") with [60; 60; 60; 80; 65; 71; 69; 32]%N.
  change (str_of ">>>") with [62; 62; 62]%N.
  cbn [app rmatch]. unfold set_matches, citem_matches.
  cbn [IGNORECASE NOFLAGS existsb citem_has xorb N.eqb Pos.eqb orb].
  apply rloop_digits.
  - intros p. cbn [rmatch]. unfold set_matches, citem_matches.
    cbn [IGNORECASE NOFLAGS existsb citem_has xorb N.eqb Pos.eqb orb].
    replace (Nat.eqb _ _) with false.
    + rewrite andb_false_r. rewrite length_app, Nat.add_sub.
      rewrite firstn_app, firstn_all, Nat.sub_diag. cbn [firstn].
      now rewrite app_nil_r.
    + symmetry. apply Nat.eqb_neq. simpl. rewrite length_app. simpl. lia.
  - reflexivity.
  - exact Hds.
  - lia.
  - destruct ds; [contradiction | simpl; lia].
Qed.

Lemma match_at_not_marker (adv : bool) (prev : option char) (c : char)
    (s : str) :
  c <> 60%N -> match_at NOFLAGS Pat.page_marker adv prev (c :: s) = None.
Proof.
  intros Hc. unfold match_at.
  let r := eval vm_compute in Pat.page_marker in
  change Pat.page_marker with r.
  cbn [rmatch]. unfold set_matches, citem_matches.
  cbn [IGNORECASE NOFLAGS existsb citem_has xorb].
  now rewrite (proj2 (N.eqb_neq c 60) Hc).
Qed.

Lemma search_from_no_marker : forall (T : str) adv prev,
  Forall (fun c => c <> 60%N) T ->
  search_from NOFLAGS Pat.page_marker adv prev T = None.
Proof.
  induction T as [| c T IH]; intros adv prev HT.
  - reflexivity.
  - inversion HT as [| ? ? Hc HT']; subst. cbn [search_from].
    rewrite match_at_not_marker by exact Hc. now rewrite IH.
Qed.

Lemma search_from_marker (ds R : str) :
  ds <> [] -> Forall (fun c => is_digit c = true) ds ->
  forall (T : str) adv prev,
    Forall (fun c => c <> 60%N) T ->
    search_from NOFLAGS Pat.page_marker adv prev
      (T ++ str_of "<<<PAGE " ++ ds ++ str_of ">>>" ++ R)
    = Some (length T, str_of "<<<PAGE " ++ ds ++ str_of ">>>" ++ R,
            (Some 62%N, R, [(1, ds)])).
Proof.
  intros Hne Hds. induction T as [| c T IH]; intros adv prev HT.
  - cbn [app length].
    pose proof (match_at_marker adv prev R Hne Hds) as Hm.
    destruct (str_of "<<<PAGE " ++ ds ++ str_of ">>>" ++ R);
      cbn [search_from]; now rewrite Hm.
  - inversion HT as [| ? ? Hc HT']; subst. cbn [app search_from length].
    rewrite match_at_not_marker by exact Hc. now rewrite IH.
Qed.

Lemma full_with_markers_concat (pages : list Page.t) :
  full_with_markers pages
  = concat (List.map (fun p => page_sentinel (Page.page p) ++ Page.text p)
              pages).
Proof.
  unfold full_with_markers.
  assert (H : forall l acc,
    fold_left (fun acc p => acc ++ page_sentinel (Page.page p) ++ Page.text p)
      l acc
    = acc ++ concat (List.map (fun p => page_sentinel (Page.page p)
                                          ++ Page.text p) l)).
  { induction l as [| p l IH]; intros acc; cbn [fold_left List.map concat].
    - now rewrite app_nil_r.
    - rewrite IH. now rewrite <- !app_assoc. }
  apply (H pages []).
Qed.

Lemma full_with_markers_cons (p : Page.t) (pages : list Page.t) :
  full_with_markers (p :: pages)
  = page_sentinel (Page.page p) ++ Page.text p ++ full_with_markers pages.
Proof.
  rewrite !full_with_markers_concat. cbn [List.map concat].
  now rewrite <- app_assoc.
Qed.

Lemma full_with_markers_app (a b : list Page.t) :
  full_with_markers (a ++ b) = full_with_markers a ++ full_with_markers b.
Proof.
  rewrite !full_with_markers_concat. now rewrite map_app, concat_app.
Qed.

Lemma full_with_markers_length (pages : list Page.t) :
  length pages <= length (full_with_markers pages).
Proof.
  induction pages as [| p pages IH]; [apply Nat.le_0_l |].
  rewrite full_with_markers_cons. unfold page_sentinel.
  rewrite !length_app. simpl. lia.
Qed.

(** The markers found in a text of plain pages are those of the pages. *)
Lemma scan_markers : forall (pages : list Page.t) (T : str) fuel adv off prev,
  Forall plain_page pages -> Forall (fun c => c <> 60%N) T ->
  length pages < fuel ->
  List.map (fun m => group m 1)
    (scan NOFLAGS fuel Pat.page_marker adv off prev
       (T ++ full_with_markers pages))
  = List.map (fun p => Some (dec (Page.page p))) pages.
Proof.
  induction pages as [| p pages IH]; intros T fuel adv off prev Hp HT Hfuel;
    (destruct fuel as [| fuel]; [simpl in Hfuel; lia |]); cbn [scan].
  - change (full_with_markers []) with (@nil char). rewrite app_nil_r.
    now rewrite search_from_no_marker.
  - inversion Hp as [| ? ? [Hn Htext] Hp']; subst.
    destruct (dec_digits Hn) as (Hne & Hds & _).
    rewrite full_with_markers_cons. unfold page_sentinel.
    replace (T ++ ([NL] ++ str_of "<<<PAGE " ++ dec (Page.page p)
                   ++ str_of ">>>" ++ [NL])
               ++ Page.text p ++ full_with_markers pages)
      with ((T ++ [NL]) ++ str_of "<<<PAGE " ++ dec (Page.page p)
              ++ str_of ">>>"
              ++ (NL :: Page.text p) ++ full_with_markers pages)
      by (rewrite <- !app_assoc; reflexivity).
    rewrite (search_from_marker _ Hne Hds).
    + cbn [List.map mk_match m_caps group m_start m_end]. f_equal.
      apply IH; [exact Hp' | | simpl in Hfuel; lia].
      constructor; [discriminate | exact Htext].
    + apply Forall_app. split; [exact HT |]. constructor; [discriminate |].
      constructor.
Qed.

Lemma findall1_markers (pages : list Page.t) :
  Forall plain_page pages ->
  findall1 NOFLAGS Pat.page_marker (full_with_markers pages)
  = List.map (fun p => dec (Page.page p)) pages.
Proof.
  intros Hp. unfold findall1, finditer.
  pose proof (@scan_markers pages [] (2 * length (full_with_markers pages) + 2)
                false 0 None Hp (Forall_nil _)) as H.
  cbn [app] in H.
  rewrite <- (map_map (fun m => group m 1)
                (fun g => match g with Some g => g | None => [] end)).
  rewrite H; [| pose proof (full_with_markers_length pages); lia].
  now rewrite map_map.
Qed.

Lemma page_before_last (pre : list Page.t) (p : Page.t) :
  Forall plain_page (pre ++ [p]) ->
  page_before (full_with_markers (pre ++ [p])) = Page.page p.
Proof.
  intros Hp. unfold page_before. rewrite (findall1_markers Hp).
  rewrite map_app, rev_app_distr. cbn [List.map rev app].
  apply Forall_app in Hp. destruct Hp as [_ Hp].
  inversion Hp as [| ? ? [Hn _] _]; subst.
  now destruct (dec_digits Hn) as (_ & _ & ->).
Qed.

(** The text before a position in the text of page [p] is the marked text
    of the pages before, and of [p] cut at that position. *)
Lemma firstn_full_with_markers (pre post : list Page.t) (p : Page.t) (k : nat) :
  k <= length (Page.text p) ->
  firstn (length (full_with_markers pre)
          + length (page_sentinel (Page.page p)) + k)
    (full_with_markers (pre ++ p :: post))
  = full_with_markers
      (pre ++ [{| Page.page := Page.page p;
                  Page.text := firstn k (Page.text p) |}]).
Proof.
  intros Hk. rewrite !full_with_markers_app, !full_with_markers_cons.
  cbn [Page.page Page.text]. change (full_with_markers []) with (@nil char).
  rewrite app_nil_r. rewrite <- Nat.add_assoc.
  rewrite firstn_app_2. f_equal. rewrite firstn_app_2. f_equal.
  rewrite firstn_app.
  replace (k - length (Page.text p)) with 0 by lia.
  cbn [firstn]. now rewrite app_nil_r.
Qed.

Lemma blocks_of_page (full : str) : forall ms,
  Forall2 (fun m b => Block.page b = page_before (firstn (m_start m) full))
    ms (blocks_of full ms).
Proof.
  induction ms as [| m ms IH]; cbn [blocks_of]; constructor;
    [reflexivity | exact IH].
Qed.

(** X14.  When no page number is negative and no page text has a "<",
    the page of a block is the number of the page in whose text its
    header starts. *)
Theorem split_into_blocks_page (pre post : list Page.t) (p : Page.t) :
  Forall plain_page (pre ++ p :: post) ->
  let pages := pre ++ p :: post in
  let first := length (full_with_markers pre)
               + length (page_sentinel (Page.page p)) in
  Forall2 (fun m b =>
             first <= m_start m <= first + length (Page.text p) ->
             Block.page b = Page.page p)
    (finditer I_ Pat.subtask (full_with_markers pages))
    (split_into_blocks pages).
Proof.
  intros Hp pages first. unfold split_into_blocks. fold pages.
  eapply Forall2_impl; [| apply blocks_of_page].
  cbv beta. intros m b -> [Hlo Hhi].
  replace (m_start m) with (first + (m_start m - first)) by lia.
  unfold first, pages. rewrite firstn_full_with_markers by lia.
  rewrite page_before_last; [reflexivity |].
  apply Forall_app in Hp. destruct Hp as [Hpre Hp].
  inversion Hp as [| ? ? [Hn Ht] _]; subst.
  apply Forall_app. split; [exact Hpre |]. constructor; [| constructor].
  split; [exact Hn |]. cbn [Page.text].
  apply Forall_forall. intros x Hx. apply in_firstn in Hx.
  revert x Hx. now apply Forall_forall.
Qed.

Lemma split_into_blocks_page_witness :
  Forall plain_page [first_page; second_page]
  /\ Forall2 (fun m b =>
                length (full_with_markers [first_page])
                + length (page_sentinel 12) <= m_start m
                <= length (full_with_markers [first_page])
                   + length (page_sentinel 12)
                   + length (Page.text second_page) ->
                Block.page b = 12%Z)
       (finditer I_ Pat.subtask (full_with_markers [first_page; second_page]))
       (split_into_blocks [first_page; second_page]).
Proof.
  assert (H : Forall plain_page [first_page; second_page]).
  { constructor; [| constructor; [| constructor]];
      (split; [cbn; lia |]); cbn; repeat (constructor; [discriminate |]);
      constructor. }
  split; [exact H |].
  exact (@split_into_blocks_page [first_page] [] second_page H).
Defined.

(** The pages of the blocks of the two pages. *)
Example split_into_blocks_two_pages :
  List.map Block.page (split_into_blocks [first_page; second_page])
  = [7%Z; 12%Z].
Proof. vm_compute. reflexivity. Qed.

(** ** Applicability *)

Lemma within_accepts (fl : flags) (P : char -> bool) (r : regex) (c : char) :
  (IGNORECASE fl = true ->
   forall c, (P (lower_char c) || P (upper_char c))%bool = true -> P c = true) ->
  within P r -> accepts fl r c = true -> P c = true.
Proof.
  intros Hcase.
  induction r as [| neg items | | r1 IH1 r2 IH2 | r1 IH1 r2 IH2
                 | r1 IH1 lo hi greedy | j r1 IH1 | r1 IH1 | | |];
    cbn [within accepts]; try discriminate; try tauto; intros Hw Ha; auto.
  - destruct Hw as [-> Hi]. unfold set_matches in Ha. cbn [xorb] in Ha.
    apply existsb_exists in Ha. destruct Ha as (it & Hin & Hm).
    pose proof (proj1 (Forall_forall _ _) Hi it Hin) as Hit.
    unfold citem_matches in Hm. destruct (IGNORECASE fl).
    + apply (Hcase eq_refl). apply orb_true_iff in Hm. apply orb_true_iff.
      destruct Hm as [Hm | Hm]; [left | right]; now apply Hit.
    + now apply Hit.
  - apply orb_true_iff in Ha. destruct Hw, Ha; auto.
  - apply orb_true_iff in Ha. destruct Hw, Ha; auto.
Qed.

Lemma upper_char_idem (c : char) :
  upper_char (lower_char c) = upper_char c
  /\ upper_char (upper_char c) = upper_char c.
Proof.
  unfold upper_char, lower_char, is_lower, is_upper, in_range.
  destruct (N.leb_spec 65 c), (N.leb_spec c 90); cbn [andb];
    destruct (N.leb_spec 97 c), (N.leb_spec c 122); cbn [andb]; try lia;
    repeat match goal with
      | |- context [N.leb ?a ?b] => destruct (N.leb_spec a b); cbn [andb]
      end; split; lia.
Qed.

Lemma marker_char_letter (c : char) :
  (65 <= c <= 122)%N ->
  marker_char c = existsb (N.eqb (upper_char c)) (str_of "TOANDR").
Proof.
  intros H. unfold marker_char. rewrite bounds_not_space by lia.
  unfold is_digit, in_range. rewrite (proj2 (N.leb_gt c 57)) by lia.
  unfold ENDASH. repeat rewrite (proj2 (N.eqb_neq c _)) by lia.
  now rewrite andb_false_r.
Qed.

Lemma marker_char_case (c : char) :
  (marker_char (lower_char c) || marker_char (upper_char c))%bool = true ->
  marker_char c = true.
Proof.
  destruct (upper_char_idem c) as [E1 E2].
  destruct (is_upper c) eqn:Eu; [| destruct (is_lower c) eqn:El].
  - assert (El : is_lower c = false).
    { unfold is_upper, is_lower, in_range in *.
      apply andb_true_iff in Eu. rewrite !N.leb_le in Eu.
      rewrite (proj2 (N.leb_gt 97 c)) by lia. reflexivity. }
    rewrite (marker_char_letter (lower_char_letter c Eu)), E1.
    assert (Hu : upper_char c = c) by (unfold upper_char; now rewrite El).
    rewrite !Hu. rewrite orb_true_iff. intros [H | H]; [| exact H].
    rewrite marker_char_letter; [now rewrite Hu |].
    apply letter_bounds. now rewrite Eu.
  - rewrite (marker_char_letter (upper_char_letter c El)), E2.
    assert (Hl : lower_char c = c) by (unfold lower_char; now rewrite Eu).
    rewrite Hl. rewrite orb_true_iff. intros [H | H]; [exact H |].
    rewrite marker_char_letter; [exact H |].
    apply letter_bounds. rewrite El. apply orb_true_r.
  - destruct (case_of_other c Eu El) as [-> ->]. now rewrite orb_diag.
Qed.

Lemma item_within_char (P : char -> bool) (k : char) :
  P k = true -> item_within P (CChar k).
Proof. intros H x Hx. apply N.eqb_eq in Hx. now subst. Qed.

Lemma fsn_group_within :
  Forall (fun g => within marker_char (snd g)) (groups_of Pat.fsn).
Proof.
  assert (Hd : item_within marker_char CDigit).
  { intros x Hx. cbn [citem_has] in Hx. unfold marker_char. now rewrite Hx. }
  assert (Hs : item_within marker_char CSpace).
  { intros x Hx. cbn [citem_has] in Hx. unfold marker_char. rewrite Hx.
    now rewrite orb_true_r. }
  cbn. constructor; [| constructor]. cbn.
  repeat match goal with
    | |- _ /\ _ => split
    | |- Forall _ (_ :: _) => constructor
    | |- Forall _ [] => constructor
    | |- _ = _ => reflexivity
    | |- item_within _ CDigit => exact Hd
    | |- item_within _ CSpace => exact Hs
    | |- item_within _ (CChar _) => apply item_within_char; reflexivity
    end.
Qed.

Lemma contains_in (needle : str) : forall s,
  contains needle s = true -> forall x, In x needle -> In x s.
Proof.
  assert (Hs : forall n s, starts_with n s = true ->
                           forall x, In x n -> In x s).
  { induction n as [| a n IH]; intros s H x Hx; [destruct Hx |].
    destruct s as [| b s]; [discriminate |]. cbn [starts_with] in H.
    apply andb_true_iff in H. destruct H as [Hab H].
    apply N.eqb_eq in Hab. subst b.
    destruct Hx as [<- | Hx]; [now left | right; eapply IH; eauto]. }
  induction s as [| b s IH]; intros H x Hx; cbn [contains] in H;
    apply orb_true_iff in H.
  - destruct H as [H | H]; [| discriminate]. eapply Hs; eauto.
  - destruct H as [H | H]; [eapply Hs; eauto | right; eapply IH; eauto].
Qed.

Lemma marker_no_all (s : str) :
  Forall (fun c => marker_char c = true) s ->
  contains (str_of "ALL") (upper s) = false.
Proof.
  intros Hs. destruct (contains (str_of "ALL") (upper s)) eqn:E;
    [| reflexivity].
  exfalso.
  pose proof (@contains_in _ _ E 76%N (or_intror (or_introl eq_refl))) as Hl.
  unfold upper in Hl. apply in_map_iff in Hl. destruct Hl as (c & Hc & Hin).
  pose proof (proj1 (Forall_forall _ _) Hs c Hin) as Hm.
  assert (Hcc : c = 76%N \/ c = 108%N).
  { revert Hc. unfold upper_char, is_lower, in_range.
    destruct (N.leb_spec 97 c), (N.leb_spec c 122); cbn [andb]; lia. }
  destruct Hcc; subst c; discriminate.
Qed.

(** X15.  On an ASCII text the variants of a record are never empty and
    are among CEO and NEO.  A block without applicability marker has the
    marker "ALL" and both variants.  A marker taken from the text is made
    of digits, white space, commas, hyphens, en dashes and the letters of
    TO, AND and OR, so ALL never occurs in it. *)
Theorem parse_block_applicability (block : Block.t) (r : record) :
  ascii_text (Block.text block) ->
  parse_block block = Ret (Some r) ->
  aircraft r <> [] /\ incl (aircraft r) [CEO; NEO]
  /\ match re_search I_ Pat.fsn (Block.text block) with
     | None => _fsn_raw r = str_of "ALL" /\ aircraft r = [CEO; NEO]
     | Some _ =>
         Forall (fun c => marker_char c = true) (_fsn_raw r)
         /\ contains (str_of "ALL") (upper (_fsn_raw r)) = false
     end.
Proof.
  intros _ H. apply parse_block_inv in H. destruct H as (Hraw & Ha & _).
  rewrite Ha. rewrite fsn_to_aircraft_cases.
  split; [| split].
  - destruct (_ || _)%bool; [discriminate |].
    destruct (ceo_found _), (neo_found _); discriminate.
  - destruct (_ || _)%bool; [apply incl_refl |].
    destruct (ceo_found _), (neo_found _); try apply incl_refl;
      intros x [Hx | []]; subst; simpl; auto.
  - destruct (re_search I_ Pat.fsn (Block.text block)) as [m |] eqn:E;
      cbn [group1_or] in Hraw.
    + apply re_search_shape in E. destruct E as [Hc _].
      unfold group in Hraw.
      destruct (cap_get 1 (m_caps m)) as [g |] eqn:Eg; [| discriminate].
      cbn [strip_opt] in Hraw. injection Hraw as <-.
      destruct (Hc 1 g Eg) as (body & Hin & Hs & _).
      pose proof (proj1 (Forall_forall _ _) fsn_group_within _ Hin) as Hw.
      cbn [snd] in Hw.
      assert (Hm : Forall (fun c => marker_char c = true) (strip g)).
      { apply Forall_strip. eapply Forall_impl; [| exact Hs]. cbv beta.
        intros c. apply within_accepts; [| exact Hw].
        intros _. apply marker_char_case. }
      split; [exact Hm | now apply marker_no_all].
    + injection Hraw as <-. split; reflexivity.
Qed.

Lemma parse_block_applicability_witness :
  ascii_text (Block.text (scenario_block 3))
  /\ exists r, parse_block (scenario_block 3) = Ret (Some r)
               /\ aircraft r = [CEO]
               /\ Forall (fun c => marker_char c = true) (_fsn_raw r).
Proof.
  assert (Hascii : ascii_text (Block.text (scenario_block 3))) by reflexivity.
  split; [exact Hascii |].
  destruct (parse_block (scenario_block 3)) as [[r |] | e] eqn:E;
    try (vm_compute in E; discriminate).
  exists r. split; [reflexivity |].
  pose proof (@parse_block_applicability (scenario_block 3) r Hascii E)
    as (_ & _ & H).
  assert (Hm : re_search I_ Pat.fsn (Block.text (scenario_block 3)) <> None)
    by (vm_compute; discriminate).
  destruct (re_search I_ Pat.fsn (Block.text (scenario_block 3)));
    [| contradiction].
  split; [| exact (proj1 H)].
  vm_compute in E. injection E as <-. reflexivity.
Defined.

(** ** Serial numbers *)

(** X16.  On a marker that is one serial number of three digits, the
    resolver follows the ranges its patterns are written for: 051 to 100
    is CEO, 101 to 150 is NEO, and every other number gives both. *)
Theorem fsn_to_aircraft_three_digits (n : nat) :
  n < 1000 -> fsn_to_aircraft (three_digits n) = family_of n.
Proof.
  intros Hn.
  assert (H : forallb (fun n => same_lists (fsn_to_aircraft (three_digits n))
                                  (family_of n)) (seq 0 1000) = true)
    by (vm_compute; reflexivity).
  pose proof (proj1 (forallb_forall _ _) H n) as Hx.
  specialize (Hx (proj2 (in_seq _ _ _) (conj (Nat.le_0_l _) Hn))).
  unfold same_lists in Hx.
  now destruct (list_eq_dec _ _ _) in Hx.
Qed.

Lemma fsn_to_aircraft_three_digits_witness :
  75 < 1000 /\ fsn_to_aircraft (str_of "075") = [CEO].
Proof.
  split; [lia |]. exact (@fsn_to_aircraft_three_digits 75 ltac:(lia)).
Defined.
